(** * Monotonic attention (mlfab/nn/architectures/monotonic_attention.py)

    A shallow embedding of the log-space forward and backward recurrences of
    the one-to-many monotonic attention operator, of the device dispatch and
    of the configuration checks of the attention layer, over the real
    numbers.

    Tensors are mutable Python objects: the embedding keeps them in a heap of
    tensor values addressed by location, and the functions of the source are
    computations in a state-and-exception monad over that heap.  Every
    operation of the source acts on the last two axes and carries the leading
    axes along (the [...] index), so a tensor is modelled by one
    (src_len x tgt_len) slice.  *)

From Stdlib Require Import Reals Lra Lia ZArith FunctionalExtensionality.
From stdpp Require Import base list strings gmap.
Open Scope R_scope.

(** Comparisons of real numbers are decided as in the Standard Library. *)
#[global] Instance Rlt_decision (x y : R) : Decision (x < y) := Rlt_dec x y.
#[global] Instance Req_decision : EqDecision R := Req_dec_T.

(** ** Log-space arithmetic *)

Definition MIN_LOG_PROB : R := - 10000.

(** [torch.log1p] *)
Definition log1p (x : R) : R := ln (1 + x).

(** [torch.logsumexp] over a stack of two tensors, cell by cell. *)
Definition _logaddexp (a b : R) : R := ln (exp a + exp b).

Definition _pos_log_prob (x : R) : R := - log1p (exp (- x)).

Definition _neg_log_prob (x : R) : R := - log1p (exp x).

Definition _d_pos_log_prob (x : R) : R := 1 / (1 + exp x).

Definition _d_neg_log_prob (x : R) : R := - 1 / (1 + exp (- x)).

(** ** Tensors

    [cols] is [size(-1)] and the number of rows is [size(-2)]; the width is
    kept apart from the rows so that a tensor with no row still has one. *)

Record tensor := Tensor { cols : nat; rows : list (list R) }.

Definition size_src (t : tensor) : nat := length (rows t).
Definition size_tgt (t : tensor) : nat := cols t.

Definition has_shape (t : tensor) (Sn Tn : nat) : Prop :=
  length (rows t) = Sn ∧ cols t = Tn ∧ Forall (λ r, length r = Tn) (rows t).

(** The cell [(i, j)], if the tensor has it; and the same with [0] outside
    the tensor. *)
Definition cell_opt (t : tensor) (i j : nat) : option R :=
  rows t !! i ≫= (.!! j).

Definition cell (t : tensor) (i j : nat) : R := default 0 (cell_opt t i j).

(** The list [f 0; ...; f (n - 1)]. *)
Definition tab {A} (n : nat) (f : nat → A) : list A := f <$> seq 0 n.

(** The tensor of shape [(Sn, Tn)] whose cell [(i, j)] is [f i j]. *)
Definition tabulate (Sn Tn : nat) (f : nat → nat → R) : tensor :=
  Tensor Tn (tab Sn (λ i, tab Tn (f i))).

(** [t[..., :-1]] on one row. *)
Definition but_last (r : list R) : list R := take (length r - 1) r.

(** [F.pad(t, (1, 0), value=v)] *)
Definition pad_left (v : R) (t : tensor) : tensor :=
  Tensor (S (cols t)) (cons v <$> rows t).

(** [t[..., k:]] *)
Definition drop_cols (k : nat) (t : tensor) : tensor :=
  Tensor (cols t - k) (drop k <$> rows t).

Definition tensor_map (f : R → R) (t : tensor) : tensor :=
  Tensor (cols t) ((λ r : list R, f <$> r) <$> rows t).

(** Cell-wise binary operations; the call sites combine tensors of one
    shape, so broadcasting is not modelled. *)
Definition tensor_zip (f : R → R → R) (t u : tensor) : tensor :=
  Tensor (cols t) (zip_with (zip_with f) (rows t) (rows u)).

Definition tensor_add : tensor → tensor → tensor := tensor_zip Rplus.
Definition tensor_mul : tensor → tensor → tensor := tensor_zip Rmult.

(** ** Heap, exceptions and the monad of the embedding *)

Inductive exn :=
  | IndexError
  | RuntimeError
  | ValueError
  | ZeroDivisionError
  | AssertionError.

Inductive outcome (A : Type) :=
  | Returns (a : A)
  | Raises (e : exn).
Arguments Returns {A} a.
Arguments Raises {A} e.

(** Tensor objects are addressed by their position in the heap. *)
Abbreviation loc := nat (only parsing).

(** [uninit] is what freshly allocated, uninitialised memory holds. *)
Record state := State {
  heap : list tensor;
  warned : list string;
  uninit : nat → nat → R;
}.

Definition M (A : Type) : Type := state → outcome A * state.

Definition ret {A} (a : A) : M A := λ s, (Returns a, s).

Definition raise {A} (e : exn) : M A := λ s, (Raises e, s).

Definition bind {A B} (m : M A) (k : A → M B) : M B :=
  λ s, match m s with
       | (Returns a, s') => k a s'
       | (Raises e, s') => (Raises e, s')
       end.

Notation "'let!' x ':=' m 'in' k" := (bind m (λ x, k))
  (at level 10, x name, m at level 100, k at level 200).
Notation "'do!' m 'in' k" := (bind m (λ _, k))
  (at level 10, m at level 100, k at level 200).

Definition set_heap (h : list tensor) (s : state) : state :=
  State h (warned s) (uninit s).

(** A new tensor object holding [t]. *)
Definition alloc (t : tensor) : M loc :=
  λ s, (Returns (length (heap s)), set_heap (heap s ++ [t]) s).

(** Reading the tensor object at [l]; a location that the heap does not
    have, which no Python name can hold, raises. *)
Definition load (l : loc) : M tensor :=
  λ s, match heap s !! l with
       | Some t => (Returns t, s)
       | None => (Raises RuntimeError, s)
       end.

Definition store (l : loc) (t : tensor) : M unit :=
  λ s, (Returns tt, set_heap (<[l := t]> (heap s)) s).

(** [warnings.warn(msg)] *)
Definition warn (msg : string) : M unit :=
  λ s, (Returns tt, State (heap s) (warned s ++ [msg]) (uninit s)).

(** [for x in xs: body(x)] *)
Fixpoint for_ {A} (xs : list A) (body : A → M unit) : M unit :=
  match xs with
  | [] => ret tt
  | x :: xs' => do! body x in for_ xs' body
  end.

(** [torch.empty_like(t)] *)
Definition empty_like (t : tensor) : M loc :=
  λ s, alloc (Tensor (cols t)
                (imap (λ i r, imap (λ j _, uninit s i j) r) (rows t))) s.

(** [t[..., i, :]] read as a value. *)
Definition row_of (l : loc) (i : nat) : M (list R) :=
  let! t := load l in
  match rows t !! i with
  | Some r => ret r
  | None => raise IndexError
  end.

(** [t[..., :, j] = v] *)
Definition fill_col (l : loc) (j : nat) (v : R) : M unit :=
  let! t := load l in
  if decide (j < cols t)%nat
  then store l (Tensor (cols t) ((λ r, <[j := v]> r) <$> rows t))
  else raise IndexError.

(** [t[..., i, :] = v] *)
Definition fill_row (l : loc) (i : nat) (v : R) : M unit :=
  let! t := load l in
  if decide (i < length (rows t))%nat
  then store l (Tensor (cols t) (<[i := replicate (cols t) v]> (rows t)))
  else raise IndexError.

(** [t[..., i, j] = v] *)
Definition set_cell (l : loc) (i j : nat) (v : R) : M unit :=
  let! t := load l in
  match rows t !! i with
  | Some r =>
      if decide (j < cols t)%nat
      then store l (Tensor (cols t) (<[i := <[j := v]> r]> (rows t)))
      else raise IndexError
  | None => raise IndexError
  end.

(** [t[..., i, k:] = vs] *)
Definition assign_row_from (l : loc) (i k : nat) (vs : list R) : M unit :=
  let! t := load l in
  match rows t !! i with
  | Some r =>
      if decide (length vs = cols t - k)%nat
      then store l (Tensor (cols t) (<[i := take k r ++ vs]> (rows t)))
      else raise RuntimeError
  | None => raise IndexError
  end.

(** [t[..., i, :] = vs] *)
Definition assign_row (l : loc) (i : nat) (vs : list R) : M unit :=
  assign_row_from l i 0 vs.

(** [t[..., i, :] += vs] *)
Definition add_row (l : loc) (i : nat) (vs : list R) : M unit :=
  let! t := load l in
  match rows t !! i with
  | Some r =>
      if decide (length vs = cols t)
      then store l (Tensor (cols t) (<[i := zip_with Rplus r vs]> (rows t)))
      else raise RuntimeError
  | None => raise IndexError
  end.

(** [t[..., i, :-1] += vs] *)
Definition add_row_but_last (l : loc) (i : nat) (vs : list R) : M unit :=
  let! t := load l in
  match rows t !! i with
  | Some r =>
      if decide (length vs = cols t - 1)%nat
      then store l (Tensor (cols t)
             (<[i := zip_with Rplus (but_last r) vs ++ drop (length r - 1) r]>
                (rows t)))
      else raise RuntimeError
  | None => raise IndexError
  end.

(** ** The forward and backward passes

    A name of the source that is bound to a tensor which is written in place
    or returned is a location; a tensor that is only read is a value.  The
    view [phis[..., 1:]] that [forward_pass_cpu_] returns is a tensor object
    of its own, since nothing writes through it afterwards.  The index
    [t_i - 1] is a natural number: for [t_i = 0] it is [0] where Python has
    [-1], and both are out of range in a tensor with no row. *)

Definition forward_pass_cpu_ (logits : loc) : M (loc * loc) :=
  let! lt := load logits in
  let t_i := size_src lt in
  let logits := pad_left 0 lt in
  let! phis := empty_like logits in
  do! fill_col phis 0 MIN_LOG_PROB in
  do! fill_row phis 0 MIN_LOG_PROB in
  do! set_cell phis 0 1 0 in
  do! for_ (seq 1 (t_i - 1)) (λ i,
    let! p := row_of phis (i - 1) in
    match rows logits !! (i - 1)%nat with
    | Some l =>
        assign_row_from phis i 1
          (zip_with _logaddexp
             (zip_with Rplus (drop 1 p) (_pos_log_prob <$> drop 1 l))
             (zip_with Rplus (but_last p) (_neg_log_prob <$> but_last l)))
    | None => raise IndexError
    end) in
  let! pt := load phis in
  let! phis := alloc (drop_cols 1 pt) in
  let! pv := load phis in
  let! probs := alloc (tensor_add pv (tensor_map _neg_log_prob (drop_cols 1 logits))) in
  ret (phis, probs).

Definition backward_pass_cpu_ (logits phis grad_phis : loc) : M loc :=
  let! lt := load logits in
  let t_i := size_src lt in
  let! gt := load grad_phis in
  let! grad_logits := empty_like gt in
  do! fill_row grad_logits (t_i - 1) 0 in
  let extra_grad := tensor_mul (tensor_map _d_neg_log_prob lt) gt in
  do! for_ (rev (seq 0 (t_i - 1))) (λ i,
    let! p := row_of phis (i + 1) in
    let! phi_i := row_of phis i in
    let! l_i := row_of logits i in
    let a := exp <$> zip_with Rminus
               (zip_with Rplus phi_i (_pos_log_prob <$> l_i)) p in
    let b := exp <$> zip_with Rminus
               (zip_with Rplus (but_last phi_i) (_neg_log_prob <$> but_last l_i))
               (drop 1 p) in
    let! g := row_of grad_phis (i + 1) in
    let c := zip_with Rmult g a in
    let d := zip_with Rmult (drop 1 g) b in
    do! assign_row grad_logits i (zip_with Rmult c (_d_pos_log_prob <$> l_i)) in
    do! add_row_but_last grad_logits i
          (zip_with Rmult d (_d_neg_log_prob <$> but_last l_i)) in
    do! add_row grad_phis i c in
    add_row_but_last grad_phis i d) in
  let! gl := load grad_logits in
  alloc (tensor_add gl extra_grad).

(** The statements of [backward_pass_cpu_] before its loop, returning
    [t_i], the new [grad_logits] and [extra_grad]; and the body of the loop
    at step [i]. *)
Definition backward_seed (logits grad_phis : loc) : M (nat * nat * tensor) :=
  let! lt := load logits in
  let t_i := size_src lt in
  let! gt := load grad_phis in
  let! grad_logits := empty_like gt in
  do! fill_row grad_logits (t_i - 1) 0 in
  ret (t_i, grad_logits, tensor_mul (tensor_map _d_neg_log_prob lt) gt).

Definition backward_step (logits phis grad_phis grad_logits : loc) (i : nat)
  : M unit :=
  let! p := row_of phis (i + 1) in
  let! phi_i := row_of phis i in
  let! l_i := row_of logits i in
  let a := exp <$> zip_with Rminus
             (zip_with Rplus phi_i (_pos_log_prob <$> l_i)) p in
  let b := exp <$> zip_with Rminus
             (zip_with Rplus (but_last phi_i) (_neg_log_prob <$> but_last l_i))
             (drop 1 p) in
  let! g := row_of grad_phis (i + 1) in
  let c := zip_with Rmult g a in
  let d := zip_with Rmult (drop 1 g) b in
  do! assign_row grad_logits i (zip_with Rmult c (_d_pos_log_prob <$> l_i)) in
  do! add_row_but_last grad_logits i
        (zip_with Rmult d (_d_neg_log_prob <$> but_last l_i)) in
  do! add_row grad_phis i c in
  add_row_but_last grad_phis i d.

(** ** The autograd operator *)

Module MonotonicAttentionCpu.

(** What [ctx.save_for_backward] keeps: the two tensor objects. *)
Record ctx := Ctx { saved_logits : loc; saved_phis : loc }.

Definition forward (logits : loc) : M (ctx * loc) :=
  let! r := forward_pass_cpu_ logits in
  ret (Ctx logits (fst r), snd r).

(** [grad_phis.clone()] is a new tensor object with the same cells. *)
Definition backward (c : ctx) (grad_phis : loc) : M loc :=
  let! gt := load grad_phis in
  let! clone := alloc gt in
  backward_pass_cpu_ (saved_logits c) (saved_phis c) clone.

End MonotonicAttentionCpu.

Definition one_to_many_warning : string :=
  "One-to-many attention expects the source sequence to be longer than the target sequence!".

Definition monotonic_attention_cpu (logits : loc) : M loc :=
  let! lt := load logits in
  let tsz_src := size_src lt in
  let tsz_tgt := size_tgt lt in
  do! (if decide (tsz_src < tsz_tgt)%nat then warn one_to_many_warning else ret tt) in
  let! r := MonotonicAttentionCpu.forward logits in
  ret (snd r).

(** ** Device dispatch

    The callables that the dispatch returns are compared by identity, so they
    are the two constructors of [callable].  [supports_triton] belongs to
    [mlfab.nn.triton], which is not part of this development: its answer is
    the parameter [triton].  [lru_cache f] is [functools.lru_cache] with
    [maxsize=None] on a function of one argument: the cache is a finite map
    from the argument to the value returned at the first call.  The import
    of the Triton implementation is taken to succeed. *)

Inductive callable :=
  | monotonic_attention_cpu_fn
  | monotonic_attention_gpu_fn.

Definition lru_cache {V} (f : string → V) (k : string) (cache : gmap string V)
  : V * gmap string V :=
  match cache !! k with
  | Some v => (v, cache)
  | None => let v := f k in (v, <[k := v]> cache)
  end.

Definition get_monotonic_attention_fn_body (triton : bool)
    (device_type : string) : callable :=
  if bool_decide (device_type ≠ "cuda") || negb triton
  then monotonic_attention_cpu_fn
  else monotonic_attention_gpu_fn.

Definition get_monotonic_attention_fn (triton : bool) (device_type : string)
    (cache : gmap string callable) : callable * gmap string callable :=
  lru_cache (get_monotonic_attention_fn_body triton) device_type cache.

(** The caches that calls of the dispatch build, starting from none. *)
Inductive reachable (triton : bool) : gmap string callable → Prop :=
  | reachable_empty : reachable triton ∅
  | reachable_call device_type cache :
      reachable triton cache →
      reachable triton
        (snd (get_monotonic_attention_fn triton device_type cache)).

(** ** The attention layer: configuration and clamping

    Python integers are [Z], with [%] and [//] as floor modulo and floor
    division that raise on a zero divisor; Python floats are real numbers.
    [__init__] is the constructor up to its last scalar field (lines 218
    to 237 of the source).  The projection weights, which PyTorch allocates
    and initialises after the fields below, are not part of the record, and
    that allocation can raise as well (on a negative size, or when the
    initialisation divides by a zero fan): a call that [__init__] rejects is
    rejected by the constructor with the same exception, and a call that the
    constructor accepts is accepted by [__init__] with the same fields, but
    not conversely. *)

Definition obind {A B} (o : outcome A) (k : A → outcome B) : outcome B :=
  match o with
  | Returns a => k a
  | Raises e => Raises e
  end.

Notation "'let?' x ':=' o 'in' k" := (obind o (λ x, k))
  (at level 10, x name, o at level 100, k at level 200).

Definition py_mod (a b : Z) : outcome Z :=
  if decide (b = 0)%Z then Raises ZeroDivisionError else Returns (a mod b)%Z.

Definition py_floordiv (a b : Z) : outcome Z :=
  if decide (b = 0)%Z then Raises ZeroDivisionError else Returns (a / b)%Z.

(** [math.sqrt] of an integer *)
Definition py_sqrt (a : Z) : outcome R :=
  if decide (a < 0)%Z then Raises ValueError else Returns (sqrt (IZR a)).

(** [assert b] *)
Definition assert_ (b : bool) : outcome unit :=
  if b then Returns tt else Raises AssertionError.

Definition neg_prob_to_phi (prob : R) : outcome R :=
  if decide (prob = 0) then Raises ZeroDivisionError
  else if decide (0 < 1 / prob - 1) then Returns (- ln (1 / prob - 1))
  else Raises ValueError.

(** ** Floating-point rounding

    The tensors of the layer hold floating-point numbers, and [torch.tanh]
    returns the hyperbolic tangent rounded to the tensor's format.  A binary
    format has a precision and a least exponent; [mag x] is the exponent [e]
    with [2 ^ (e - 1) <= |x| < 2 ^ e], and [round_nearest fmt x] is the
    number of the format nearest to [x], a tie going to the even
    significand.  Overflow is left out: no number between -1 and 1 reaches
    it. *)

Record format := Format { prec : Z; emin : Z }.

Definition float32 : format := Format 24 (-149).
Definition float64 : format := Format 53 (-1074).

Definition mag (x : R) : Z := (Zfloor (ln (Rabs x) / ln 2) + 1)%Z.

Definition Znearest (x : R) : Z :=
  let f := Zfloor x in
  if decide (x - IZR f < 1 / 2) then f
  else if decide (1 / 2 < x - IZR f) then (f + 1)%Z
  else if Z.even f then f else (f + 1)%Z.

Definition ulp_exp (fmt : format) (x : R) : Z :=
  Z.max (mag x - prec fmt) (emin fmt).

Definition round_nearest (fmt : format) (x : R) : R :=
  if decide (x = 0) then 0
  else IZR (Znearest (x * powerRZ 2 (- ulp_exp fmt x)))
       * powerRZ 2 (ulp_exp fmt x).

(** [torch.tanh] on a tensor of the format [fmt], cell by cell *)
Definition torch_tanh (fmt : format) (x : R) : R := round_nearest fmt (tanh x).

Module MonotonicAttention.

Record t := Layer {
  mode : string;
  num_heads : Z;
  gqa_factor : Z;
  kv_num_heads : Z;
  head_dim : Z;
  max_kv_cache_len : option Z;
  clamp_value : R;
  soft_clamp : bool;
  norm_fact : R;
  embed_dim : Z;
  kv_embed_dim : Z;
  kdim : Z;
  vdim : Z;
  _qkv_same_embed_dim : bool;
}.

Definition __init__ (mode : string) (embed_dim num_heads : Z) (bias : bool)
    (kdim vdim : option Z) (gqa_factor : Z) (max_kv_cache_len : option Z)
    (clamp_prob : R) (soft_clamp : bool) : outcome t :=
  let? r := py_mod embed_dim num_heads in
  let? _ := assert_ (bool_decide (r = 0%Z)) in
  let? r := py_mod num_heads gqa_factor in
  let? _ := assert_ (bool_decide (r = 0%Z)) in
  let? _ := assert_ (bool_decide (1 / 2 < clamp_prob)
                     && bool_decide (clamp_prob < 1)) in
  let? kv_num_heads := py_floordiv num_heads gqa_factor in
  let? head_dim := py_floordiv embed_dim num_heads in
  let? clamp_value := neg_prob_to_phi clamp_prob in
  let? norm_fact := py_sqrt head_dim in
  let kv_embed_dim := (kv_num_heads * head_dim)%Z in
  let kdim := default embed_dim kdim in
  let vdim := default embed_dim vdim in
  Returns (Layer mode num_heads gqa_factor kv_num_heads head_dim
             max_kv_cache_len clamp_value soft_clamp norm_fact embed_dim
             kv_embed_dim kdim vdim
             (bool_decide (kdim = embed_dim) && bool_decide (vdim = embed_dim))).

(** [torch.clamp], cell by cell *)
Definition clamp (lo hi x : R) : R := Rmin (Rmax x lo) hi.

Definition _clamp_attn (self : t) (attn : tensor) : tensor :=
  if negb (soft_clamp self)
  then tensor_map (clamp (- clamp_value self) (clamp_value self)) attn
  else tensor_map (λ x, tanh x * clamp_value self) attn.

(** [_clamp_attn] on a tensor of the floating-point format [fmt]: the
    tangent is the rounded one that [torch.tanh] returns, of which the
    tangent of [_clamp_attn] above is the idealisation over the reals. *)
Definition _clamp_attn_rounded (fmt : format) (self : t) (attn : tensor)
  : tensor :=
  if negb (soft_clamp self)
  then tensor_map (clamp (- clamp_value self) (clamp_value self)) attn
  else tensor_map (λ x, torch_tanh fmt x * clamp_value self) attn.

End MonotonicAttention.

(** ** The recurrences, cell by cell

    [padded l] is the cell function of [F.pad(logits, (1, 0), value=0.0)]
    when [l] is the one of [logits]; [phi_rec lp i j] is the cell [(i, j)] of
    the table that the loop of [forward_pass_cpu_] fills from the padded
    logits [lp]. *)

Definition padded (l : nat → nat → R) (i j : nat) : R :=
  match j with O => 0 | S j' => l i j' end.

Fixpoint phi_rec (lp : nat → nat → R) (i j : nat) : R :=
  match i with
  | O => if decide (j = 1%nat) then 0 else MIN_LOG_PROB
  | S i' =>
      match j with
      | O => MIN_LOG_PROB
      | S j' =>
          _logaddexp (phi_rec lp i' j + _pos_log_prob (lp i' j))
                     (phi_rec lp i' j' + _neg_log_prob (lp i' j'))
      end
  end.

(** The cells of the two tensors that [forward_pass_cpu_] returns for the
    logits [L]. *)
Definition phi_cell (L : tensor) (i j : nat) : R :=
  phi_rec (padded (cell L)) i (S j).

Definition prob_cell (L : tensor) (i j : nat) : R :=
  phi_cell L i j + _neg_log_prob (cell L i j).

(** The cells of the reverse loop of [backward_pass_cpu_], for logits [l],
    a table [ph] and an upstream gradient [g] of [Tn] columns: [stay_post]
    and [advance_post] are the rows [a] and [b] of step [i];
    [grad_phi_rec n i k] is the cell [(i, k)] of the accumulator [grad_phis]
    once the loop has left row [i], [n] rows below it having been folded
    in. *)

Definition stay_post (l ph : nat → nat → R) (i k : nat) : R :=
  exp (ph i k + _pos_log_prob (l i k) - ph (i + 1)%nat k).

Definition advance_post (l ph : nat → nat → R) (i k : nat) : R :=
  exp (ph i k + _neg_log_prob (l i k) - ph (i + 1)%nat (S k)).

Fixpoint grad_phi_rec (Tn : nat) (l ph g : nat → nat → R) (n i k : nat) : R :=
  match n with
  | O => g i k
  | S n' =>
      let c := grad_phi_rec Tn l ph g n' (i + 1) k * stay_post l ph i k in
      let d := grad_phi_rec Tn l ph g n' (i + 1) (S k) * advance_post l ph i k in
      if decide (k < Tn - 1)%nat then g i k + c + d else g i k + c
  end.

Definition grad_phi_cell (Sn Tn : nat) (l ph g : nat → nat → R) (i k : nat) : R :=
  grad_phi_rec Tn l ph g (Sn - 1 - i) i k.

(** The cell [(i, k)] of [grad_logits] when the loop is over, and of the
    tensor that [backward_pass_cpu_] returns. *)
Definition loop_grad_cell (Sn Tn : nat) (l ph g : nat → nat → R) (i k : nat) : R :=
  if decide (i < Sn - 1)%nat then
    let c := grad_phi_cell Sn Tn l ph g (i + 1) k * stay_post l ph i k in
    let d := grad_phi_cell Sn Tn l ph g (i + 1) (S k) * advance_post l ph i k in
    if decide (k < Tn - 1)%nat
    then c * _d_pos_log_prob (l i k) + d * _d_neg_log_prob (l i k)
    else c * _d_pos_log_prob (l i k)
  else 0.

Definition grad_logits_cell (Sn Tn : nat) (l ph g : nat → nat → R) (i k : nat) : R :=
  loop_grad_cell Sn Tn l ph g i k + _d_neg_log_prob (l i k) * g i k.

(** ** The forward output as a function of the logits

    [forward_pass_cpu_] run on a heap that holds the logits alone. *)

Definition initial_state (ts : list tensor) : state := State ts [] (λ _ _, 0).

Definition forward_outputs (L : tensor) : option (tensor * tensor) :=
  let (r, s) := forward_pass_cpu_ 0 (initial_state [L]) in
  match r with
  | Returns (phis, probs) =>
      phi ← heap s !! phis; prob ← heap s !! probs; Some (phi, prob)
  | Raises _ => None
  end.

Definition forward_prob_cell (L : tensor) (i k : nat) : R :=
  match forward_outputs L with
  | Some (_, prob) => cell prob i k
  | None => 0
  end.

(** The logits [L] with the cell [(p, q)] replaced by [t]. *)
Definition set_logit (L : tensor) (p q : nat) (t : R) : tensor :=
  match rows L !! p with
  | Some r => Tensor (cols L) (<[p := <[q := t]> r]> (rows L))
  | None => L
  end.

(** ** Sums and tangents

    [Rsum n f] is [f 0 + ... + f (n - 1)].  [dphi_cell l ph dl i k] is the
    derivative of the cell [(i, k)] of the table [ph] of the logits [l] along
    a direction [dl] of the logits. *)

Fixpoint Rsum (n : nat) (f : nat → R) : R :=
  match n with
  | O => 0
  | S n' => Rsum n' f + f n'
  end.

Fixpoint dphi_cell (l ph dl : nat → nat → R) (i k : nat) : R :=
  match i with
  | O => 0
  | S i' =>
      stay_post l ph i' k
        * (dphi_cell l ph dl i' k + _d_pos_log_prob (l i' k) * dl i' k)
      + match k with
        | O => 0
        | S k' =>
            advance_post l ph i' k'
              * (dphi_cell l ph dl i' k' + _d_neg_log_prob (l i' k') * dl i' k')
        end
  end.

(** ** Frames

    [frame n s s'] says that a run from [s] to [s'] left the first [n]
    tensor objects of the heap, the warnings and the uninitialised memory as
    they were.  [preserves n m Q] says that every run of [m], returning or
    raising, from a heap of at least [n] objects does so, and that a value it
    returns satisfies [Q]. *)

Definition frame (n : nat) (s s' : state) : Prop :=
  (n ≤ length (heap s'))%nat
  ∧ take n (heap s') = take n (heap s)
  ∧ warned s' = warned s
  ∧ uninit s' = uninit s.

Definition preserves {A} (n : nat) (m : M A) (Q : A → Prop) : Prop :=
  ∀ s, (n ≤ length (heap s))%nat →
    frame n s (snd (m s)) ∧ ∀ a, fst (m s) = Returns a → Q a.

(** ** Conversions between transition probabilities and logits

    The four scalar helpers of the module; [neg_prob_to_phi] is above, with
    the constructor that calls it. *)

Definition phi_to_pos_prob (phi : R) : R := 1 / (exp (- phi) + 1).

Definition phi_to_neg_prob (phi : R) : R := 1 / (exp phi + 1).

Definition pos_prob_to_phi (prob : R) : outcome R :=
  if decide (prob = 0) then Raises ZeroDivisionError
  else if decide (0 < 1 / prob - 1) then Returns (ln (1 / prob - 1))
  else Raises ValueError.

(** ** The dispatched operator

    [call_attention_fn] applies a callable of the dispatch to logits.  The
    GPU implementation is in [mlfab.nn.triton.monotonic_attention], which is
    not part of this development: it is the parameter [gpu_impl].
    [monotonic_attention] takes the device type of its logits
    ([logits.device.type]) and the cache of the dispatch, and returns the
    new cache with the computation it runs. *)

Definition call_attention_fn (gpu_impl : nat → M nat) (f : callable)
    (logits : loc) : M loc :=
  match f with
  | monotonic_attention_cpu_fn => monotonic_attention_cpu logits
  | monotonic_attention_gpu_fn => gpu_impl logits
  end.

Definition monotonic_attention (triton : bool) (gpu_impl : nat → M nat)
    (device_type : string) (cache : gmap string callable) (logits : loc)
  : M loc * gmap string callable :=
  let (f, cache') := get_monotonic_attention_fn triton device_type cache in
  (call_attention_fn gpu_impl f logits, cache').

(** ** The passes as functions of their tensors

    The table of [forward_pass_cpu_], cell by cell, beside its marginal
    output [forward_prob_cell]; and the gradient of [backward_pass_cpu_] run
    on a heap that holds the logits, a table and an upstream gradient. *)

Definition forward_phi_cell (L : tensor) (i k : nat) : R :=
  match forward_outputs L with
  | Some (phi, _) => cell phi i k
  | None => 0
  end.

Definition backward_output (L phi g : tensor) : option tensor :=
  let (r, s) := backward_pass_cpu_ 0 1 2 (initial_state [L; phi; g]) in
  match r with
  | Returns out => heap s !! out
  | Raises _ => None
  end.

Definition backward_grad_cell (L phi g : tensor) (i k : nat) : R :=
  match backward_output L phi g with
  | Some G => cell G i k
  | None => 0
  end.

(** * Tabulated lists and tensors

    Every well-shaped tensor is the tabulation of its cells, and each
    operation of the embedding maps tabulations to tabulations. *)

Section Tab.
Context {A : Type}.
Implicit Types (f g : nat → A) (n i k : nat).

Lemma lookup_tab n f i :
  tab n f !! i = if decide (i < n)%nat then Some (f i) else None.
Proof.
  unfold tab. rewrite list_lookup_fmap. case_decide.
  - by rewrite lookup_seq_lt.
  - rewrite lookup_seq_ge; [done | lia].
Qed.

Lemma lookup_tab_lt n f i : (i < n)%nat → tab n f !! i = Some (f i).
Proof. intros. rewrite lookup_tab. by case_decide. Qed.

Lemma length_tab n f : length (tab n f) = n.
Proof. unfold tab. by rewrite length_fmap, length_seq. Qed.

Lemma tab_ext n f g : (∀ i, (i < n)%nat → f i = g i) → tab n f = tab n g.
Proof.
  intros E. apply list_eq. intros i. rewrite !lookup_tab.
  case_decide; [f_equal; auto | done].
Qed.

Lemma tab_insert n f i (x : A) :
  <[i := x]> (tab n f) = tab n (λ k, if decide (k = i) then x else f k).
Proof.
  apply list_eq. intros k. rewrite lookup_tab.
  destruct (decide (k = i)) as [-> | Hne].
  - destruct (decide (i < n)%nat).
    + rewrite list_lookup_insert_eq; [done | by rewrite length_tab].
    + rewrite list_insert_ge; [| rewrite length_tab; lia].
      rewrite lookup_tab. by case_decide.
  - rewrite list_lookup_insert_ne by done. by rewrite lookup_tab.
Qed.

Lemma tab_drop n f k : drop k (tab n f) = tab (n - k) (λ i, f (k + i)%nat).
Proof.
  apply list_eq. intros i. rewrite lookup_drop, !lookup_tab.
  repeat case_decide; done || lia.
Qed.

Lemma tab_take n f k : take k (tab n f) = tab (k `min` n) f.
Proof.
  apply list_eq. intros i. rewrite lookup_take, !lookup_tab.
  repeat case_decide; done || lia.
Qed.

Lemma tab_app n m f g :
  tab n f ++ tab m g
  = tab (n + m) (λ i, if decide (i < n)%nat then f i else g (i - n)%nat).
Proof.
  apply list_eq. intros i. rewrite lookup_tab.
  destruct (decide (i < n)%nat).
  - rewrite lookup_app_l by (by rewrite length_tab).
    rewrite lookup_tab. repeat case_decide; done || lia.
  - rewrite lookup_app_r by (rewrite length_tab; lia).
    rewrite length_tab, lookup_tab. repeat case_decide; done || lia.
Qed.

Lemma tab_replicate n (x : A) : replicate n x = tab n (λ _, x).
Proof.
  apply list_eq. intros i. rewrite lookup_tab. case_decide.
  - by apply lookup_replicate_2.
  - apply lookup_replicate_None. lia.
Qed.

Lemma list_is_tab (d : A) (l : list A) :
  l = tab (length l) (λ i, default d (l !! i)).
Proof.
  apply list_eq. intros i. rewrite lookup_tab. case_decide.
  - destruct (lookup_lt_is_Some_2 l i) as [x Hx]; [done |]. by rewrite Hx.
  - apply lookup_ge_None. lia.
Qed.
End Tab.

Lemma tab_fmap {A B} (h : A → B) n (f : nat → A) :
  h <$> tab n f = tab n (λ i, h (f i)).
Proof. unfold tab. by rewrite <- list_fmap_compose. Qed.

Lemma tab_zip_with {A B C} (h : A → B → C) n (f : nat → A) (g : nat → B) :
  zip_with h (tab n f) (tab n g) = tab n (λ i, h (f i) (g i)).
Proof.
  apply list_eq. intros i. rewrite lookup_zip_with, !lookup_tab.
  by case_decide.
Qed.

Lemma tab_imap {A B} (h : nat → A → B) n (f : nat → A) :
  imap h (tab n f) = tab n (λ i, h i (f i)).
Proof.
  apply list_eq. intros i. rewrite list_lookup_imap, !lookup_tab.
  by case_decide.
Qed.

Lemma tab_but_last n (f : nat → R) : but_last (tab n f) = tab (n - 1) f.
Proof.
  unfold but_last. rewrite tab_take, length_tab. f_equal. lia.
Qed.

Lemma tab_cons {A} n (x : A) (f : nat → A) :
  x :: tab n f = tab (S n) (λ j, match j with O => x | S j' => f j' end).
Proof.
  apply list_eq. intros [| i]; rewrite lookup_tab.
  - case_decide; [done | lia].
  - simpl. rewrite lookup_tab. repeat case_decide; done || lia.
Qed.

Lemma has_shape_tabulate Sn Tn f : has_shape (tabulate Sn Tn f) Sn Tn.
Proof.
  repeat split; simpl.
  - apply length_tab.
  - apply Forall_forall. intros r Hr.
    apply list_elem_of_lookup in Hr as [i Hi].
    rewrite lookup_tab in Hi. case_decide; [| done].
    injection Hi as <-. apply length_tab.
Qed.

Lemma rows_tabulate Sn Tn f i :
  (i < Sn)%nat → rows (tabulate Sn Tn f) !! i = Some (tab Tn (f i)).
Proof.
  intros. unfold tabulate. cbn [rows].
  by rewrite (lookup_tab_lt Sn (λ i, tab Tn (f i))).
Qed.

Lemma cell_tabulate Sn Tn f i j :
  (i < Sn)%nat → (j < Tn)%nat → cell (tabulate Sn Tn f) i j = f i j.
Proof.
  intros. unfold cell, cell_opt. rewrite rows_tabulate by done. simpl.
  by rewrite lookup_tab_lt.
Qed.

Lemma tabulate_ext Sn Tn f g :
  (∀ i j, (i < Sn)%nat → (j < Tn)%nat → f i j = g i j) →
  tabulate Sn Tn f = tabulate Sn Tn g.
Proof.
  intros E. unfold tabulate. f_equal. apply tab_ext. intros i Hi.
  apply tab_ext. auto.
Qed.

Lemma tensor_is_tabulate t Sn Tn :
  has_shape t Sn Tn → t = tabulate Sn Tn (cell t).
Proof.
  destruct t as [c rs]. intros (HS & HT & Hr). simpl in *. subst c.
  unfold tabulate. f_equal.
  rewrite (list_is_tab [] rs) at 1. rewrite HS. apply tab_ext.
  intros i Hi. destruct (lookup_lt_is_Some_2 rs i) as [r Er]; [lia |].
  rewrite Er. simpl.
  assert (length r = Tn) as Hl.
  { eapply (proj1 (Forall_forall _ _) Hr), list_elem_of_lookup; eauto. }
  rewrite (list_is_tab 0 r) at 1. rewrite Hl. apply tab_ext.
  intros j Hj. unfold cell, cell_opt. simpl. by rewrite Er.
Qed.

Lemma pad_left_tabulate v Sn Tn f :
  pad_left v (tabulate Sn Tn f)
  = tabulate Sn (S Tn) (λ i j, match j with O => v | S j' => f i j' end).
Proof.
  unfold pad_left, tabulate. simpl. f_equal.
  rewrite tab_fmap. apply tab_ext. intros i _. apply tab_cons.
Qed.

Lemma drop_cols_tabulate k Sn Tn f :
  drop_cols k (tabulate Sn Tn f) = tabulate Sn (Tn - k) (λ i j, f i (k + j)%nat).
Proof.
  unfold drop_cols, tabulate. simpl. f_equal.
  rewrite tab_fmap. apply tab_ext. intros i _. apply tab_drop.
Qed.

Lemma tensor_map_tabulate h Sn Tn f :
  tensor_map h (tabulate Sn Tn f) = tabulate Sn Tn (λ i j, h (f i j)).
Proof.
  unfold tensor_map, tabulate. simpl. f_equal.
  rewrite tab_fmap. apply tab_ext. intros i _. apply tab_fmap.
Qed.

Lemma tensor_zip_tabulate h Sn Tn f g :
  tensor_zip h (tabulate Sn Tn f) (tabulate Sn Tn g)
  = tabulate Sn Tn (λ i j, h (f i j) (g i j)).
Proof.
  unfold tensor_zip, tabulate. simpl. f_equal.
  rewrite tab_zip_with. apply tab_ext. intros i _. apply tab_zip_with.
Qed.

(** * Running the operations of the embedding *)

Ltac tab_cases :=
  repeat case_decide;
  first [ done | lia | f_equal; lia | exfalso; intuition lia | intuition congruence ].

Lemma bind_run {A B} (m : M A) (k : A → M B) s a s' :
  m s = (Returns a, s') → bind m k s = k a s'.
Proof. intros E. unfold bind. by rewrite E. Qed.

Lemma bind_raises {A B} (m : M A) (k : A → M B) s e s' :
  m s = (Raises e, s') → bind m k s = (Raises e, s').
Proof. intros E. unfold bind. by rewrite E. Qed.

Lemma load_run l s t : heap s !! l = Some t → load l s = (Returns t, s).
Proof. intros E. unfold load. by rewrite E. Qed.

Lemma set_heap_twice h h' s : set_heap h (set_heap h' s) = set_heap h s.
Proof. done. Qed.

Section Ops.
Context (l : loc) (s : state) (Sn Tn : nat) (f : nat → nat → R).
Hypothesis Hl : heap s !! l = Some (tabulate Sn Tn f).

Lemma row_of_run i :
  (i < Sn)%nat → row_of l i s = (Returns (tab Tn (f i)), s).
Proof.
  intros. unfold row_of. rewrite (bind_run _ _ _ _ _ (load_run _ _ _ Hl)).
  by rewrite rows_tabulate.
Qed.

Lemma fill_col_run j v :
  (j < Tn)%nat →
  fill_col l j v s
  = (Returns tt,
     set_heap (<[l := tabulate Sn Tn
                        (λ i j', if decide (j' = j) then v else f i j')]>
                 (heap s)) s).
Proof.
  intros. unfold fill_col.
  rewrite (bind_run _ _ _ _ _ (load_run _ _ _ Hl)). simpl.
  case_decide; [| lia]. unfold store. do 3 f_equal.
  unfold tabulate. f_equal. rewrite tab_fmap. apply tab_ext. intros i _.
  apply tab_insert.
Qed.

Lemma fill_row_run i v :
  (i < Sn)%nat →
  fill_row l i v s
  = (Returns tt,
     set_heap (<[l := tabulate Sn Tn
                        (λ i' j, if decide (i' = i) then v else f i' j)]>
                 (heap s)) s).
Proof.
  intros. unfold fill_row.
  rewrite (bind_run _ _ _ _ _ (load_run _ _ _ Hl)). simpl.
  rewrite length_tab. case_decide; [| lia]. unfold store. do 3 f_equal.
  unfold tabulate. f_equal. rewrite tab_insert. apply tab_ext. intros i' _.
  case_decide; [apply tab_replicate | done].
Qed.

Lemma set_cell_run i j v :
  (i < Sn)%nat → (j < Tn)%nat →
  set_cell l i j v s
  = (Returns tt,
     set_heap (<[l := tabulate Sn Tn
                        (λ i' j', if decide (i' = i ∧ j' = j) then v
                                  else f i' j')]>
                 (heap s)) s).
Proof.
  intros. unfold set_cell.
  rewrite (bind_run _ _ _ _ _ (load_run _ _ _ Hl)).
  rewrite rows_tabulate by done. simpl.
  case_decide; [| lia]. unfold store. do 3 f_equal.
  unfold tabulate. f_equal. rewrite !tab_insert. apply tab_ext. intros i' _.
  case_decide.
  - subst. apply tab_ext. intros. tab_cases.
  - apply tab_ext. intros. tab_cases.
Qed.

Lemma assign_row_from_run i k V :
  (i < Sn)%nat → (k ≤ Tn)%nat →
  assign_row_from l i k (tab (Tn - k) V) s
  = (Returns tt,
     set_heap (<[l := tabulate Sn Tn
                        (λ i' j, if decide (i' = i ∧ k ≤ j)
                                 then V (j - k)%nat else f i' j)]>
                 (heap s)) s).
Proof.
  intros. unfold assign_row_from.
  rewrite (bind_run _ _ _ _ _ (load_run _ _ _ Hl)).
  rewrite rows_tabulate by done. simpl. rewrite length_tab.
  case_decide; [| lia]. unfold store. do 3 f_equal.
  unfold tabulate. f_equal. rewrite !tab_insert. apply tab_ext. intros i' _.
  case_decide.
  - subst. rewrite tab_take, tab_app.
    replace (k `min` Tn + (Tn - k))%nat with Tn by lia.
    apply tab_ext. intros. tab_cases.
  - apply tab_ext. intros. tab_cases.
Qed.

Lemma assign_row_run i V :
  (i < Sn)%nat →
  assign_row l i (tab Tn V) s
  = (Returns tt,
     set_heap (<[l := tabulate Sn Tn
                        (λ i' j, if decide (i' = i) then V j else f i' j)]>
                 (heap s)) s).
Proof.
  intros. unfold assign_row.
  replace (tab Tn V) with (tab (Tn - 0) V) by (f_equal; lia).
  rewrite assign_row_from_run by (done || lia). do 3 f_equal.
  apply tabulate_ext. intros. tab_cases.
Qed.

Lemma add_row_run i V :
  (i < Sn)%nat →
  add_row l i (tab Tn V) s
  = (Returns tt,
     set_heap (<[l := tabulate Sn Tn
                        (λ i' j, if decide (i' = i) then f i' j + V j
                                 else f i' j)]>
                 (heap s)) s).
Proof.
  intros. unfold add_row.
  rewrite (bind_run _ _ _ _ _ (load_run _ _ _ Hl)).
  rewrite rows_tabulate by done. simpl. rewrite length_tab.
  case_decide; [| lia]. unfold store. do 3 f_equal.
  unfold tabulate. f_equal. rewrite !tab_insert. apply tab_ext. intros i' _.
  case_decide.
  - subst. rewrite tab_zip_with. done.
  - done.
Qed.

Lemma add_row_but_last_run i V :
  (i < Sn)%nat →
  add_row_but_last l i (tab (Tn - 1) V) s
  = (Returns tt,
     set_heap (<[l := tabulate Sn Tn
                        (λ i' j, if decide (i' = i ∧ j < Tn - 1)%nat
                                 then f i' j + V j else f i' j)]>
                 (heap s)) s).
Proof.
  intros. unfold add_row_but_last.
  rewrite (bind_run _ _ _ _ _ (load_run _ _ _ Hl)).
  rewrite rows_tabulate by done. simpl. rewrite length_tab.
  case_decide; [| lia]. unfold store. do 3 f_equal.
  unfold tabulate. f_equal. rewrite !tab_insert. apply tab_ext. intros i' _.
  case_decide.
  - subst. rewrite tab_but_last, tab_zip_with, length_tab, tab_drop, tab_app.
    replace (Tn - 1 + (Tn - (Tn - 1)))%nat with Tn by lia.
    apply tab_ext. intros. tab_cases.
  - apply tab_ext. intros. tab_cases.
Qed.
End Ops.

Lemma empty_like_run Sn Tn f s :
  empty_like (tabulate Sn Tn f) s
  = (Returns (length (heap s)),
     set_heap (heap s ++ [tabulate Sn Tn (uninit s)]) s).
Proof.
  unfold empty_like, alloc. simpl. do 4 f_equal.
  unfold tabulate. f_equal. rewrite tab_imap. apply tab_ext. intros i _.
  apply tab_imap.
Qed.

Lemma set_heap_id s : set_heap (heap s) s = s.
Proof. by destruct s. Qed.

Lemma heap_set_heap h s : heap (set_heap h s) = h.
Proof. done. Qed.

(** * The forward pass computes the recurrence *)

Lemma forward_loop_run phis lp Sn Tn :
  ∀ n i F s,
    (1 ≤ i)%nat → (i + n = Sn)%nat →
    heap s !! phis = Some (tabulate Sn (S Tn) F) →
    (∀ i', F i' O = MIN_LOG_PROB) →
    (∀ i' j, (i' < i)%nat → F i' j = phi_rec lp i' j) →
    for_ (seq i n) (λ i,
      let! p := row_of phis (i - 1) in
      match rows (tabulate Sn (S Tn) lp) !! (i - 1)%nat with
      | Some l =>
          assign_row_from phis i 1
            (zip_with _logaddexp
               (zip_with Rplus (drop 1 p) (_pos_log_prob <$> drop 1 l))
               (zip_with Rplus (but_last p) (_neg_log_prob <$> but_last l)))
      | None => raise IndexError
      end) s
    = (Returns tt,
       set_heap (<[phis := tabulate Sn (S Tn) (phi_rec lp)]> (heap s)) s).
Proof.
  induction n as [| n IH]; intros i F s Hi Hn Hphis H0 Hdone.
  - simpl. unfold ret. rewrite list_insert_id; [by rewrite set_heap_id |].
    rewrite Hphis. f_equal. apply tabulate_ext. intros. apply Hdone. lia.
  - cbn [seq for_].
    erewrite bind_run; cycle 1.
    { erewrite bind_run; [| apply (row_of_run _ _ _ _ _ Hphis); lia].
      rewrite rows_tabulate by lia.
      rewrite !tab_drop, !tab_but_last, !tab_fmap, !tab_zip_with.
      apply (assign_row_from_run _ _ _ _ _ Hphis); lia. }
    erewrite IH; [| lia | lia | | |].
    + rewrite heap_set_heap, set_heap_twice, list_insert_insert_eq. done.
    + rewrite heap_set_heap. apply list_lookup_insert_eq.
      by eapply lookup_lt_Some.
    + intros i'. simpl. case_decide; [lia | apply H0].
    + intros i' j Hi'. simpl. case_decide as Hc.
      * destruct Hc as [-> Hj]. destruct i as [| i]; [lia |].
        destruct j as [| j]; [lia |]. simpl.
        replace (i - 0)%nat with i by lia.
        replace (j - 0)%nat with j by lia.
        rewrite !Hdone by lia. done.
      * destruct (decide (i' = i)) as [-> | Hne].
        -- assert (j = O) as -> by lia. rewrite H0.
           destruct i; [lia | done].
        -- apply Hdone. lia.
Qed.

Lemma lookup_alloc_new (h : list tensor) t : (h ++ [t]) !! length h = Some t.
Proof. rewrite lookup_app_r by lia. by rewrite Nat.sub_diag. Qed.

Lemma insert_alloc_new (h : list tensor) t t' :
  <[length h := t']> (h ++ [t]) = h ++ [t'].
Proof.
  rewrite insert_app_r_alt by lia. by rewrite Nat.sub_diag.
Qed.

Lemma size_src_tabulate Sn Tn f : size_src (tabulate Sn Tn f) = Sn.
Proof. apply length_tab. Qed.

Lemma forward_pass_cpu_run_tab logits s f Sn Tn :
  heap s !! logits = Some (tabulate Sn Tn f) →
  (1 ≤ Sn)%nat → (1 ≤ Tn)%nat →
  forward_pass_cpu_ logits s
  = (Returns (length (heap s) + 1, length (heap s) + 2)%nat,
     set_heap (heap s ++
       [tabulate Sn (S Tn) (phi_rec (padded f));
        tabulate Sn Tn (λ i j, phi_rec (padded f) i (S j));
        tabulate Sn Tn (λ i j, phi_rec (padded f) i (S j)
                               + _neg_log_prob (f i j))]) s).
Proof.
  intros Hl HS HT. unfold forward_pass_cpu_.
  rewrite (bind_run _ _ _ _ _ (load_run _ _ _ Hl)).
  rewrite size_src_tabulate, pad_left_tabulate. fold (padded f).
  rewrite (bind_run _ _ _ _ _ (empty_like_run _ _ _ _)).
  erewrite bind_run; cycle 1.
  { eapply fill_col_run; [apply lookup_alloc_new | lia]. }
  rewrite heap_set_heap, set_heap_twice, insert_alloc_new.
  erewrite bind_run; cycle 1.
  { eapply fill_row_run; [apply lookup_alloc_new | lia]. }
  rewrite heap_set_heap, set_heap_twice, insert_alloc_new.
  erewrite bind_run; cycle 1.
  { eapply set_cell_run; [apply lookup_alloc_new | lia | lia]. }
  rewrite heap_set_heap, set_heap_twice, insert_alloc_new.
  erewrite bind_run; cycle 1.
  { eapply (forward_loop_run _ (padded f) Sn Tn (Sn - 1) 1);
      [lia | lia | apply lookup_alloc_new | |].
    - intros i'. simpl. repeat case_decide; done || lia.
    - intros i' j Hi'. assert (i' = O) as -> by lia. simpl.
      tab_cases. }
  rewrite heap_set_heap, set_heap_twice, insert_alloc_new.
  erewrite bind_run; [| apply load_run, lookup_alloc_new].
  unfold alloc at 1. erewrite bind_run; [| reflexivity].
  rewrite !heap_set_heap, set_heap_twice.
  erewrite bind_run; [| apply load_run, lookup_alloc_new].
  unfold alloc, ret. erewrite bind_run; [| reflexivity].
  rewrite !heap_set_heap, set_heap_twice, !length_app. simpl length.
  rewrite <- !app_assoc. simpl app.
  rewrite !drop_cols_tabulate, tensor_map_tabulate.
  replace (S Tn - 1)%nat with Tn by lia.
  unfold tensor_add. rewrite tensor_zip_tabulate.
  do 2 f_equal. f_equal; lia.
Qed.

Lemma forward_pass_cpu_run logits s L Sn Tn :
  heap s !! logits = Some L → has_shape L Sn Tn →
  (1 ≤ Sn)%nat → (1 ≤ Tn)%nat →
  forward_pass_cpu_ logits s
  = (Returns (length (heap s) + 1, length (heap s) + 2)%nat,
     set_heap (heap s ++ [tabulate Sn (S Tn) (phi_rec (padded (cell L)));
                          tabulate Sn Tn (phi_cell L);
                          tabulate Sn Tn (prob_cell L)]) s).
Proof.
  intros Hl Hsh HS HT.
  rewrite (tensor_is_tabulate _ _ _ Hsh) in Hl.
  by rewrite (forward_pass_cpu_run_tab _ _ _ _ _ Hl HS HT).
Qed.

(** * The backward pass computes the reverse recurrence *)

Section BackwardLoop.
Context (logits phis grad_phis grad_logits : nat) (Sn Tn : nat).
Context (l ph g : nat → nat → R).
Hypothesis Hne : grad_phis ≠ grad_logits.
Hypothesis Hnl : logits ≠ grad_phis ∧ logits ≠ grad_logits.
Hypothesis Hnp : phis ≠ grad_phis ∧ phis ≠ grad_logits.

Lemma backward_loop_run :
  ∀ n FG FL s,
    (n < Sn)%nat →
    heap s !! logits = Some (tabulate Sn Tn l) →
    heap s !! phis = Some (tabulate Sn Tn ph) →
    heap s !! grad_phis = Some (tabulate Sn Tn FG) →
    heap s !! grad_logits = Some (tabulate Sn Tn FL) →
    (∀ i k, (i < n)%nat → FG i k = g i k) →
    (∀ i k, (n ≤ i)%nat → (i < Sn)%nat → (k < Tn)%nat →
              FG i k = grad_phi_cell Sn Tn l ph g i k) →
    (∀ i k, (n ≤ i)%nat → (i < Sn)%nat → (k < Tn)%nat →
              FL i k = loop_grad_cell Sn Tn l ph g i k) →
    for_ (rev (seq 0 n)) (λ i,
      let! p := row_of phis (i + 1) in
      let! phi_i := row_of phis i in
      let! l_i := row_of logits i in
      let a := exp <$> zip_with Rminus
                 (zip_with Rplus phi_i (_pos_log_prob <$> l_i)) p in
      let b := exp <$> zip_with Rminus
                 (zip_with Rplus (but_last phi_i)
                    (_neg_log_prob <$> but_last l_i))
                 (drop 1 p) in
      let! g := row_of grad_phis (i + 1) in
      let c := zip_with Rmult g a in
      let d := zip_with Rmult (drop 1 g) b in
      do! assign_row grad_logits i
            (zip_with Rmult c (_d_pos_log_prob <$> l_i)) in
      do! add_row_but_last grad_logits i
            (zip_with Rmult d (_d_neg_log_prob <$> but_last l_i)) in
      do! add_row grad_phis i c in
      add_row_but_last grad_phis i d) s
    = (Returns tt,
       set_heap
         (<[grad_phis := tabulate Sn Tn (grad_phi_cell Sn Tn l ph g)]>
            (<[grad_logits := tabulate Sn Tn (loop_grad_cell Sn Tn l ph g)]>
               (heap s))) s).
Proof.
  induction n as [| n IH]; intros FG FL s Hn HL HP HG HGL Hg HFG HFL.
  - simpl. unfold ret.
    rewrite (list_insert_id _ grad_logits), (list_insert_id _ grad_phis).
    + by rewrite set_heap_id.
    + rewrite HG. f_equal. apply tabulate_ext. intros. apply HFG; lia.
    + rewrite HGL. f_equal. apply tabulate_ext. intros. apply HFL; lia.
  - rewrite seq_S, rev_app_distr. cbn [rev app for_ Nat.add].
    pose proof (lookup_lt_Some _ _ _ HG) as HlenG.
    pose proof (lookup_lt_Some _ _ _ HGL) as HlenGL.
    erewrite bind_run; cycle 1.
    { erewrite bind_run; [| apply (row_of_run _ _ _ _ _ HP); lia].
      erewrite bind_run; [| apply (row_of_run _ _ _ _ _ HP); lia].
      erewrite bind_run; [| apply (row_of_run _ _ _ _ _ HL); lia].
      erewrite bind_run; [| apply (row_of_run _ _ _ _ _ HG); lia].
      rewrite !tab_drop, !tab_but_last, !tab_fmap, !tab_zip_with,
              !tab_fmap, !tab_zip_with.
      erewrite bind_run; [| apply (assign_row_run _ _ _ _ _ HGL); lia].
      erewrite bind_run; cycle 1.
      { eapply add_row_but_last_run;
          [rewrite heap_set_heap; by apply list_lookup_insert_eq | lia]. }
      rewrite heap_set_heap, set_heap_twice, list_insert_insert_eq.
      erewrite bind_run; cycle 1.
      { eapply add_row_run;
          [rewrite heap_set_heap, list_lookup_insert_ne by done; apply HG
          | lia]. }
      rewrite heap_set_heap, set_heap_twice.
      eapply add_row_but_last_run;
        [rewrite heap_set_heap; apply list_lookup_insert_eq;
         by rewrite length_insert | lia]. }
    rewrite heap_set_heap, set_heap_twice, list_insert_insert_eq.
    erewrite IH; [| lia | | | | | | |].
    + rewrite heap_set_heap, set_heap_twice.
      rewrite (list_insert_insert_ne _ grad_logits grad_phis) by done.
      by rewrite !list_insert_insert_eq.
    + rewrite heap_set_heap, !list_lookup_insert_ne
        by (destruct Hnl, Hnp; congruence). apply HL.
    + rewrite heap_set_heap, !list_lookup_insert_ne
        by (destruct Hnl, Hnp; congruence). apply HP.
    + rewrite heap_set_heap. apply list_lookup_insert_eq.
      by rewrite length_insert.
    + rewrite heap_set_heap, list_lookup_insert_ne by done.
      by apply list_lookup_insert_eq.
    + intros i k Hi. simpl. repeat case_decide; try lia. apply Hg. lia.
    + intros i k Hi HiS Hk. simpl.
      destruct (decide (i = n)) as [-> | Hin].
      * unfold grad_phi_cell at 1.
        replace (Sn - 1 - n)%nat with (S (Sn - 1 - (n + 1))) by lia.
        simpl. fold (grad_phi_cell Sn Tn l ph g (n + 1)).
        rewrite (Hg n k) by lia. unfold stay_post, advance_post.
        repeat case_decide; try (exfalso; intuition lia);
          rewrite ?HFG by lia; done.
      * repeat case_decide; try lia. apply HFG; lia.
    + intros i k Hi HiS Hk. simpl.
      destruct (decide (i = n)) as [-> | Hin].
      * unfold loop_grad_cell, stay_post, advance_post.
        repeat case_decide; try (exfalso; intuition lia);
          rewrite ?HFG by lia; done.
      * repeat case_decide; try lia. apply HFL; lia.
Qed.
End BackwardLoop.

Lemma backward_pass_cpu_run logits phis grad_phis s Sn Tn l ph g :
  heap s !! logits = Some (tabulate Sn Tn l) →
  heap s !! phis = Some (tabulate Sn Tn ph) →
  heap s !! grad_phis = Some (tabulate Sn Tn g) →
  logits ≠ grad_phis → phis ≠ grad_phis → (1 ≤ Sn)%nat →
  backward_pass_cpu_ logits phis grad_phis s
  = (Returns (length (heap s) + 1)%nat,
     set_heap
       (<[grad_phis := tabulate Sn Tn (grad_phi_cell Sn Tn l ph g)]> (heap s)
        ++ [tabulate Sn Tn (loop_grad_cell Sn Tn l ph g);
            tabulate Sn Tn (grad_logits_cell Sn Tn l ph g)]) s).
Proof.
  intros HL HP HG Hlg Hpg HS. unfold backward_pass_cpu_.
  pose proof (lookup_lt_Some _ _ _ HL) as HlenL.
  pose proof (lookup_lt_Some _ _ _ HP) as HlenP.
  pose proof (lookup_lt_Some _ _ _ HG) as HlenG.
  rewrite (bind_run _ _ _ _ _ (load_run _ _ _ HL)).
  rewrite size_src_tabulate.
  rewrite (bind_run _ _ _ _ _ (load_run _ _ _ HG)).
  rewrite (bind_run _ _ _ _ _ (empty_like_run _ _ _ _)).
  erewrite bind_run; cycle 1.
  { eapply fill_row_run; [apply lookup_alloc_new | lia]. }
  rewrite heap_set_heap, set_heap_twice, insert_alloc_new.
  erewrite bind_run; cycle 1.
  { eapply (backward_loop_run logits phis grad_phis (length (heap s))
              Sn Tn l ph g); try lia.
    - rewrite heap_set_heap, lookup_app_l by done. apply HL.
    - rewrite heap_set_heap, lookup_app_l by done. apply HP.
    - rewrite heap_set_heap, lookup_app_l by done. apply HG.
    - rewrite heap_set_heap. apply lookup_alloc_new.
    - done.
    - intros i k Hi HiS Hk. unfold grad_phi_cell.
      by replace (Sn - 1 - i)%nat with O by lia.
    - intros i k Hi HiS Hk. simpl. unfold loop_grad_cell.
      repeat case_decide; done || lia. }
  rewrite heap_set_heap, set_heap_twice, insert_alloc_new.
  rewrite insert_app_l by done.
  erewrite bind_run; cycle 1.
  { apply load_run. rewrite heap_set_heap.
    rewrite lookup_app_r by (rewrite length_insert; lia).
    by rewrite length_insert, Nat.sub_diag. }
  unfold alloc. rewrite heap_set_heap, set_heap_twice.
  rewrite length_app, length_insert. simpl length.
  rewrite <- app_assoc. simpl app.
  unfold tensor_mul, tensor_add.
  rewrite tensor_map_tabulate, !tensor_zip_tabulate.
  done.
Qed.

Lemma backward_run c grad s Sn Tn l ph g :
  heap s !! MonotonicAttentionCpu.saved_logits c = Some (tabulate Sn Tn l) →
  heap s !! MonotonicAttentionCpu.saved_phis c = Some (tabulate Sn Tn ph) →
  heap s !! grad = Some (tabulate Sn Tn g) →
  (1 ≤ Sn)%nat →
  MonotonicAttentionCpu.backward c grad s
  = (Returns (length (heap s) + 2)%nat,
     set_heap
       (heap s ++ [tabulate Sn Tn (grad_phi_cell Sn Tn l ph g);
                   tabulate Sn Tn (loop_grad_cell Sn Tn l ph g);
                   tabulate Sn Tn (grad_logits_cell Sn Tn l ph g)]) s).
Proof.
  intros HL HP HG HS. unfold MonotonicAttentionCpu.backward.
  pose proof (lookup_lt_Some _ _ _ HL) as HlenL.
  pose proof (lookup_lt_Some _ _ _ HP) as HlenP.
  rewrite (bind_run _ _ _ _ _ (load_run _ _ _ HG)).
  unfold alloc at 1. erewrite bind_run; [| reflexivity].
  erewrite (backward_pass_cpu_run _ _ _ _ Sn Tn l ph g); try lia.
  - rewrite !heap_set_heap, set_heap_twice, insert_alloc_new, length_app.
    simpl length. rewrite <- app_assoc. simpl app.
    do 2 f_equal. lia.
  - rewrite heap_set_heap, lookup_app_l by done. apply HL.
  - rewrite heap_set_heap, lookup_app_l by done. apply HP.
  - rewrite heap_set_heap. apply lookup_alloc_new.
Qed.

(** * Log-space arithmetic: values and derivatives *)

Lemma exp_pos_log_prob x : exp (_pos_log_prob x) = / (1 + exp (- x)).
Proof.
  unfold _pos_log_prob, log1p. pose proof (exp_pos (- x)).
  rewrite exp_Ropp, exp_ln by lra. done.
Qed.

Lemma exp_neg_log_prob x : exp (_neg_log_prob x) = / (1 + exp x).
Proof.
  unfold _neg_log_prob, log1p. pose proof (exp_pos x).
  rewrite exp_Ropp, exp_ln by lra. done.
Qed.

Lemma exp_pos_neg_log_prob x :
  exp (_pos_log_prob x) + exp (_neg_log_prob x) = 1.
Proof.
  rewrite exp_pos_log_prob, exp_neg_log_prob, exp_Ropp.
  pose proof (exp_pos x). field. lra.
Qed.

Lemma exp_pos_log_prob_bounds x : 0 < exp (_pos_log_prob x) < 1.
Proof.
  pose proof (exp_pos_neg_log_prob x).
  pose proof (exp_pos (_pos_log_prob x)). pose proof (exp_pos (_neg_log_prob x)).
  lra.
Qed.

Lemma exp_neg_log_prob_bounds x : 0 < exp (_neg_log_prob x) < 1.
Proof.
  pose proof (exp_pos_neg_log_prob x).
  pose proof (exp_pos (_pos_log_prob x)). pose proof (exp_pos (_neg_log_prob x)).
  lra.
Qed.

Lemma exp_logaddexp a b : exp (_logaddexp a b) = exp a + exp b.
Proof.
  unfold _logaddexp. pose proof (exp_pos a). pose proof (exp_pos b).
  apply exp_ln. lra.
Qed.

Lemma derivable_pt_lim_eq f x l l' :
  derivable_pt_lim f x l → l = l' → derivable_pt_lim f x l'.
Proof. by intros H <-. Qed.

Lemma d_pos_log_prob_correct x :
  derivable_pt_lim _pos_log_prob x (_d_pos_log_prob x).
Proof.
  pose proof (exp_pos x) as Hx. pose proof (exp_pos (- x)) as Hx'.
  unfold _pos_log_prob, log1p.
  eapply derivable_pt_lim_eq.
  - apply (derivable_pt_lim_opp (λ t, ln (1 + exp (- t)))).
    apply (derivable_pt_lim_comp (λ t, 1 + exp (- t)) ln).
    + apply (derivable_pt_lim_plus (λ _, 1) (λ t, exp (- t))).
      * apply (derivable_pt_lim_const 1).
      * apply (derivable_pt_lim_comp (λ t, - t) exp).
        -- apply (derivable_pt_lim_opp id), derivable_pt_lim_id.
        -- apply derivable_pt_lim_exp.
    + apply derivable_pt_lim_ln. lra.
  - unfold _d_pos_log_prob. rewrite exp_Ropp. field. lra.
Qed.

Lemma d_neg_log_prob_correct x :
  derivable_pt_lim _neg_log_prob x (_d_neg_log_prob x).
Proof.
  pose proof (exp_pos x) as Hx. pose proof (exp_pos (- x)) as Hx'.
  unfold _neg_log_prob, log1p.
  eapply derivable_pt_lim_eq.
  - apply (derivable_pt_lim_opp (λ t, ln (1 + exp t))).
    apply (derivable_pt_lim_comp (λ t, 1 + exp t) ln).
    + apply (derivable_pt_lim_plus (λ _, 1) exp).
      * apply (derivable_pt_lim_const 1).
      * apply derivable_pt_lim_exp.
    + apply derivable_pt_lim_ln. lra.
  - unfold _d_neg_log_prob. rewrite exp_Ropp. field. lra.
Qed.

(** The derivative of [t ↦ logaddexp (u t) (v t)]: each branch is weighted
    by its posterior [exp (branch - result)]. *)
Lemma logaddexp_derivative (u v : R → R) t du dv :
  derivable_pt_lim u t du → derivable_pt_lim v t dv →
  derivable_pt_lim (λ t, _logaddexp (u t) (v t)) t
    (exp (u t - _logaddexp (u t) (v t)) * du
     + exp (v t - _logaddexp (u t) (v t)) * dv).
Proof.
  intros Hu Hv.
  pose proof (exp_pos (u t)) as Pu. pose proof (exp_pos (v t)) as Pv.
  unfold _logaddexp at 1.
  eapply derivable_pt_lim_eq.
  - apply (derivable_pt_lim_comp (λ t, exp (u t) + exp (v t)) ln).
    + apply (derivable_pt_lim_plus (λ t, exp (u t)) (λ t, exp (v t))).
      * apply (derivable_pt_lim_comp u exp); [done | apply derivable_pt_lim_exp].
      * apply (derivable_pt_lim_comp v exp); [done | apply derivable_pt_lim_exp].
    + apply derivable_pt_lim_ln. lra.
  - unfold Rminus. rewrite !exp_plus, !exp_Ropp, exp_logaddexp. field. lra.
Qed.

(** * The derivative of the forward table *)

Lemma phi_rec_col0 lp i : phi_rec lp i O = MIN_LOG_PROB.
Proof. by destruct i. Qed.

Section Tangent.
Context (lf : R → nat → nat → R) (dl : nat → nat → R) (t0 : R).
Hypothesis Hlf : ∀ i k, derivable_pt_lim (λ t, lf t i k) t0 (dl i k).

Let ph0 : nat → nat → R := λ i k, phi_rec (padded (lf t0)) i (S k).

Lemma phi_cell_derivative i :
  ∀ k, derivable_pt_lim (λ t, phi_rec (padded (lf t)) i (S k)) t0
         (dphi_cell (lf t0) ph0 dl i k).
Proof.
  induction i as [| i IH]; intros k.
  - simpl. apply (derivable_pt_lim_const _ t0).
  - cbn [phi_rec dphi_cell padded].
    assert (derivable_pt_lim
              (λ t, phi_rec (padded (lf t)) i (S k) + _pos_log_prob (lf t i k))
              t0 (dphi_cell (lf t0) ph0 dl i k
                  + _d_pos_log_prob (lf t0 i k) * dl i k)) as Hu.
    { apply (derivable_pt_lim_plus (λ t, phi_rec (padded (lf t)) i (S k))
               (λ t, _pos_log_prob (lf t i k))); [apply IH |].
      apply (derivable_pt_lim_comp (λ t, lf t i k) _pos_log_prob);
        [apply Hlf | apply d_pos_log_prob_correct]. }
    destruct k as [| k].
    + eapply derivable_pt_lim_eq.
      * apply (logaddexp_derivative _
                 (λ t, phi_rec (padded (lf t)) i 0 + _neg_log_prob 0));
          [apply Hu |].
        eapply (derivable_pt_lim_ext (λ _, MIN_LOG_PROB + _neg_log_prob 0)).
        -- intros z. simpl. by rewrite phi_rec_col0.
        -- apply (derivable_pt_lim_const _ t0).
      * unfold stay_post, ph0. rewrite Nat.add_1_r. simpl. lra.
    + eapply derivable_pt_lim_eq.
      * apply (logaddexp_derivative _
                 (λ t, phi_rec (padded (lf t)) i (S k)
                       + _neg_log_prob (lf t i k))); [apply Hu |].
        apply (derivable_pt_lim_plus (λ t, phi_rec (padded (lf t)) i (S k))
                 (λ t, _neg_log_prob (lf t i k))); [apply IH |].
        apply (derivable_pt_lim_comp (λ t, lf t i k) _neg_log_prob);
          [apply Hlf | apply d_neg_log_prob_correct].
      * unfold stay_post, advance_post, ph0. rewrite Nat.add_1_r. simpl.
        done.
Qed.

Lemma prob_cell_derivative i k :
  derivable_pt_lim
    (λ t, phi_rec (padded (lf t)) i (S k) + _neg_log_prob (lf t i k)) t0
    (dphi_cell (lf t0) ph0 dl i k + _d_neg_log_prob (lf t0 i k) * dl i k).
Proof.
  apply (derivable_pt_lim_plus (λ t, phi_rec (padded (lf t)) i (S k))
           (λ t, _neg_log_prob (lf t i k))); [apply phi_cell_derivative |].
  apply (derivable_pt_lim_comp (λ t, lf t i k) _neg_log_prob);
    [apply Hlf | apply d_neg_log_prob_correct].
Qed.
End Tangent.

(** * Finite sums *)

Lemma Rsum_ext n f g : (∀ k, (k < n)%nat → f k = g k) → Rsum n f = Rsum n g.
Proof.
  induction n as [| n IH]; intros E; [done |]. simpl.
  rewrite IH by (intros; apply E; lia). rewrite E by lia. done.
Qed.

Lemma Rsum_plus n f g : Rsum n (λ k, f k + g k) = Rsum n f + Rsum n g.
Proof. induction n as [| n IH]; simpl; [lra | rewrite IH; lra]. Qed.

Lemma Rsum_minus n f g : Rsum n (λ k, f k - g k) = Rsum n f - Rsum n g.
Proof. induction n as [| n IH]; simpl; [lra | rewrite IH; lra]. Qed.

Lemma Rsum_zero n : Rsum n (λ _, 0) = 0.
Proof. induction n as [| n IH]; simpl; [done | rewrite IH; lra]. Qed.

Lemma Rsum_shift n f : Rsum (S n) f = f O + Rsum n (λ k, f (S k)).
Proof.
  induction n as [| n IH]; [simpl; lra |].
  change (Rsum (S (S n)) f) with (Rsum (S n) f + f (S n)).
  rewrite IH. simpl. lra.
Qed.


Lemma Rsum_if_lt n h :
  Rsum n (λ k, if decide (k < n - 1)%nat then h k else 0) = Rsum (n - 1) h.
Proof.
  destruct n as [| n]; [done |].
  replace (S n - 1)%nat with n by lia.
  cbn [Rsum]. case_decide; [lia |].
  rewrite (Rsum_ext n _ h); [lra |].
  intros. case_decide; [done | lia].
Qed.

Lemma Rsum_pred n h :
  Rsum n (λ k, match k with O => 0 | S k' => h k' end) = Rsum (n - 1) h.
Proof.
  destruct n as [| n]; [done |].
  rewrite Rsum_shift. replace (S n - 1)%nat with n by lia.
  by rewrite Rplus_0_l.
Qed.

Lemma Rsum_last n f :
  (1 ≤ n)%nat → Rsum n f = Rsum (n - 1) f + f (n - 1)%nat.
Proof.
  intros. destruct n as [| n]; [lia |].
  by replace (S n - 1)%nat with n by lia.
Qed.

Lemma Rsum_single n p f :
  (p < n)%nat → (∀ k, (k < n)%nat → k ≠ p → f k = 0) → Rsum n f = f p.
Proof.
  induction n as [| n IH]; intros Hp E; [lia |]. simpl.
  destruct (decide (p = n)) as [-> | Hne].
  - rewrite (Rsum_ext n f (λ _, 0)), Rsum_zero; [lra |].
    intros. apply E; lia.
  - rewrite IH, (E n) by (intros; try apply E; lia). lra.
Qed.

(** * The reverse loop is the adjoint of the forward recurrence *)

Section Adjoint.
Context (Sn Tn : nat) (l ph g dl : nat → nat → R).

Local Abbreviation Gb := (grad_phi_cell Sn Tn l ph g).
Local Abbreviation D := (dphi_cell l ph dl).
Local Abbreviation c i k := (Gb (i + 1)%nat k * stay_post l ph i k).
Local Abbreviation d i k := (Gb (i + 1)%nat (S k) * advance_post l ph i k).

Lemma grad_phi_cell_step r k :
  (r < Sn - 1)%nat →
  Gb r k = if decide (k < Tn - 1)%nat then g r k + c r k + d r k
           else g r k + c r k.
Proof.
  intros Hr. unfold grad_phi_cell.
  replace (Sn - 1 - r)%nat with (S (Sn - 1 - (r + 1))) by lia.
  reflexivity.
Qed.

Lemma grad_phi_cell_last k : Gb (Sn - 1)%nat k = g (Sn - 1)%nat k.
Proof.
  unfold grad_phi_cell. by replace (Sn - 1 - (Sn - 1))%nat with O by lia.
Qed.

Lemma adjoint_row r :
  (r < Sn - 1)%nat →
  Rsum Tn (λ k, Gb (r + 1)%nat k * D (r + 1)%nat k)
  = Rsum Tn (λ k, (Gb r k - g r k) * D r k)
    + Rsum Tn (λ k, loop_grad_cell Sn Tn l ph g r k * dl r k).
Proof.
  intros Hr.
  transitivity
    (Rsum Tn (λ k, c r k * (D r k + _d_pos_log_prob (l r k) * dl r k))
     + Rsum (Tn - 1)
         (λ k, d r k * (D r k + _d_neg_log_prob (l r k) * dl r k))).
  - rewrite <- Rsum_pred, <- Rsum_plus. apply Rsum_ext. intros k _.
    rewrite (Nat.add_1_r r). simpl. rewrite <- (Nat.add_1_r r).
    destruct k; ring.
  - rewrite <- Rsum_if_lt, <- !Rsum_plus. apply Rsum_ext. intros k _.
    rewrite (grad_phi_cell_step r k Hr). unfold loop_grad_cell.
    repeat case_decide; try lia; ring.
Qed.

Lemma adjoint_telescope m :
  (m ≤ Sn - 1)%nat →
  Rsum m (λ i, Rsum Tn (λ k, g i k * D i k))
  = Rsum m (λ i, Rsum Tn (λ k, loop_grad_cell Sn Tn l ph g i k * dl i k))
    - Rsum Tn (λ k, Gb m k * D m k).
Proof.
  induction m as [| m IH]; intros Hm.
  - cbn [Rsum].
    rewrite (Rsum_ext Tn _ (λ _, 0)), Rsum_zero; [lra |].
    intros. simpl. ring.
  - cbn [Rsum]. rewrite IH by lia.
    pose proof (adjoint_row m ltac:(lia)) as E.
    rewrite (Nat.add_1_r m) in E. rewrite E.
    rewrite (Rsum_ext Tn (λ k, (Gb m k - g m k) * D m k)
               (λ k, Gb m k * D m k - g m k * D m k)) by (intros; ring).
    rewrite Rsum_minus. lra.
Qed.

(** Pairing the upstream gradient with the tangent of the forward output
    is pairing the computed gradient with the direction of the logits. *)
Lemma adjoint_identity :
  (1 ≤ Sn)%nat →
  Rsum Sn (λ i, Rsum Tn (λ k,
    g i k * (D i k + _d_neg_log_prob (l i k) * dl i k)))
  = Rsum Sn (λ i, Rsum Tn (λ k,
      grad_logits_cell Sn Tn l ph g i k * dl i k)).
Proof.
  intros HS.
  rewrite (Rsum_ext Sn _ (λ i,
             Rsum Tn (λ k, g i k * D i k)
             + Rsum Tn (λ k, _d_neg_log_prob (l i k) * g i k * dl i k))).
  2: { intros i _. rewrite <- Rsum_plus. apply Rsum_ext. intros. ring. }
  rewrite (Rsum_ext Sn (λ i, Rsum Tn (λ k, grad_logits_cell _ _ _ _ _ i k * _))
             (λ i,
               Rsum Tn (λ k, loop_grad_cell Sn Tn l ph g i k * dl i k)
               + Rsum Tn (λ k, _d_neg_log_prob (l i k) * g i k * dl i k))).
  2: { intros i _. rewrite <- Rsum_plus. apply Rsum_ext. intros.
       unfold grad_logits_cell. ring. }
  rewrite !Rsum_plus. f_equal.
  rewrite !(Rsum_last Sn) by done.
  rewrite adjoint_telescope by lia.
  rewrite (Rsum_ext Tn (λ k, g (Sn - 1)%nat k * _)
             (λ k, Gb (Sn - 1)%nat k * D (Sn - 1)%nat k))
    by (intros; by rewrite grad_phi_cell_last).
  rewrite (Rsum_ext Tn (λ k, loop_grad_cell _ _ _ _ _ (Sn - 1)%nat k * _)
             (λ _, 0)), Rsum_zero; [lra |].
  intros. unfold loop_grad_cell. case_decide; [lia | ring].
Qed.
End Adjoint.

(** * When the forward pass raises, and its output as a function *)

Lemma forward_pass_cpu_raises logits s L Sn Tn :
  heap s !! logits = Some L → has_shape L Sn Tn →
  Sn = O ∨ Tn = O →
  ∃ s', forward_pass_cpu_ logits s = (Raises IndexError, s').
Proof.
  intros Hl Hsh Hz. rewrite (tensor_is_tabulate _ _ _ Hsh) in Hl.
  unfold forward_pass_cpu_.
  rewrite (bind_run _ _ _ _ _ (load_run _ _ _ Hl)).
  rewrite size_src_tabulate, pad_left_tabulate.
  rewrite (bind_run _ _ _ _ _ (empty_like_run _ _ _ _)).
  erewrite bind_run; cycle 1.
  { eapply fill_col_run; [apply lookup_alloc_new | lia]. }
  rewrite heap_set_heap, set_heap_twice, insert_alloc_new.
  destruct (decide (Sn = O)) as [-> | HS].
  - eexists. apply bind_raises. unfold fill_row.
    erewrite bind_run; [| apply load_run, lookup_alloc_new].
    simpl. reflexivity.
  - destruct Hz as [? | ->]; [done |].
    erewrite bind_run; cycle 1.
    { eapply fill_row_run; [apply lookup_alloc_new | lia]. }
    rewrite heap_set_heap, set_heap_twice, insert_alloc_new.
    eexists. apply bind_raises. unfold set_cell.
    erewrite bind_run; [| apply load_run, lookup_alloc_new].
    rewrite rows_tabulate by lia. simpl. reflexivity.
Qed.

Lemma forward_pass_cpu_returns logits s L Sn Tn r s' :
  heap s !! logits = Some L → has_shape L Sn Tn →
  forward_pass_cpu_ logits s = (Returns r, s') →
  (1 ≤ Sn)%nat ∧ (1 ≤ Tn)%nat.
Proof.
  intros Hl Hsh Hr.
  destruct (decide (Sn = O ∨ Tn = O)) as [Hz | Hz]; [| lia].
  destruct (forward_pass_cpu_raises _ _ _ _ _ Hl Hsh Hz) as [s'' E].
  congruence.
Qed.

Lemma forward_outputs_tabulate Sn Tn f :
  (1 ≤ Sn)%nat → (1 ≤ Tn)%nat →
  forward_outputs (tabulate Sn Tn f)
  = Some (tabulate Sn Tn (λ i j, phi_rec (padded f) i (S j)),
          tabulate Sn Tn (λ i j, phi_rec (padded f) i (S j)
                                 + _neg_log_prob (f i j))).
Proof.
  intros HS HT. unfold forward_outputs.
  rewrite (forward_pass_cpu_run_tab 0 _ f Sn Tn) by done. done.
Qed.

Lemma forward_prob_cell_tabulate Sn Tn f i k :
  (1 ≤ Tn)%nat → (i < Sn)%nat → (k < Tn)%nat →
  forward_prob_cell (tabulate Sn Tn f) i k
  = phi_rec (padded f) i (S k) + _neg_log_prob (f i k).
Proof.
  intros. unfold forward_prob_cell.
  rewrite forward_outputs_tabulate by lia. by rewrite cell_tabulate.
Qed.

Lemma set_logit_tabulate Sn Tn f p q t :
  (p < Sn)%nat →
  set_logit (tabulate Sn Tn f) p q t
  = tabulate Sn Tn (λ i k, if decide (i = p ∧ k = q) then t else f i k).
Proof.
  intros. unfold set_logit. rewrite rows_tabulate by done.
  unfold tabulate. simpl. f_equal. rewrite !tab_insert.
  apply tab_ext. intros i _. case_decide.
  - subst. apply tab_ext. intros. tab_cases.
  - apply tab_ext. intros. tab_cases.
Qed.

Lemma forward_run logits s L Sn Tn :
  heap s !! logits = Some L → has_shape L Sn Tn →
  (1 ≤ Sn)%nat → (1 ≤ Tn)%nat →
  MonotonicAttentionCpu.forward logits s
  = (Returns (MonotonicAttentionCpu.Ctx logits (length (heap s) + 1),
              (length (heap s) + 2)%nat),
     set_heap (heap s ++ [tabulate Sn (S Tn) (phi_rec (padded (cell L)));
                          tabulate Sn Tn (phi_cell L);
                          tabulate Sn Tn (prob_cell L)]) s).
Proof.
  intros. unfold MonotonicAttentionCpu.forward.
  by erewrite bind_run; [| by eapply forward_pass_cpu_run].
Qed.

(** * The gradient of the backward pass *)

(** The gradient that the reverse recurrence computes from logits [l], their
    forward table and an upstream gradient [g], cell [(p, q)], is the upstream
    gradient paired with the partial derivatives, in the logit [(p, q)], of
    the forward output. *)
Lemma grad_logits_cell_vjp Sn Tn (l g : nat → nat → R) p q :
  (1 ≤ Sn)%nat → (p < Sn)%nat → (q < Tn)%nat →
  ∃ J : nat → nat → R,
    (∀ i k,
       derivable_pt_lim
         (λ t, phi_rec (padded (λ i k, if decide (i = p ∧ k = q) then t
                                       else l i k)) i (S k)
               + _neg_log_prob (if decide (i = p ∧ k = q) then t else l i k))
         (l p q) (J i k))
    ∧ grad_logits_cell Sn Tn l (λ i k, phi_rec (padded l) i (S k)) g p q
      = Rsum Sn (λ i, Rsum Tn (λ k, g i k * J i k)).
Proof.
  intros HS Hp Hq.
  set (lf := λ (t : R) (i k : nat), if decide (i = p ∧ k = q) then t else l i k).
  set (dl := λ (i k : nat), if decide (i = p ∧ k = q) then 1 else 0).
  assert (∀ i k, derivable_pt_lim (λ t, lf t i k) (l p q) (dl i k)) as Hlf.
  { intros i k. unfold lf, dl. case_decide.
    - apply derivable_pt_lim_id.
    - apply (derivable_pt_lim_const (l i k)). }
  assert (lf (l p q) = l) as E0.
  { apply functional_extensionality. intros i.
    apply functional_extensionality. intros k. unfold lf.
    case_decide as Hc; [by destruct Hc as [-> ->] | done]. }
  exists (λ i k, dphi_cell l (λ i k, phi_rec (padded l) i (S k)) dl i k
                 + _d_neg_log_prob (l i k) * dl i k).
  split.
  - intros i k. pose proof (prob_cell_derivative lf dl (l p q) Hlf i k) as H.
    rewrite E0 in H. exact H.
  - rewrite adjoint_identity by done.
    rewrite (Rsum_single Sn p).
    + rewrite (Rsum_single Tn q); [| done |].
      * unfold dl. case_decide; [ring | tauto].
      * intros k _ Hk. unfold dl. case_decide; [tauto | ring].
    + done.
    + intros i _ Hi. rewrite (Rsum_ext Tn _ (λ _, 0)); [apply Rsum_zero |].
      intros k _. unfold dl. case_decide; [tauto | ring].
Qed.

(** C2: for logits [L] and an upstream gradient [g] of the same shape, the
    tensor that [MonotonicAttentionCpu.backward] returns from the logits and
    the table saved by the forward pass has, in every cell [(p, q)], the sum
    over the cells [(i, k)] of [g[i,k]] times the partial derivative of
    [prob[i,k]], the output of [forward_pass_cpu_], in the logit [L[p,q]]:
    the exact vector-Jacobian product. *)
Theorem backward_is_vector_jacobian_product
    s logits L Sn Tn c probs s1 s2 grad g :
  heap s !! logits = Some L → has_shape L Sn Tn →
  MonotonicAttentionCpu.forward logits s = (Returns (c, probs), s1) →
  heap s2 !! MonotonicAttentionCpu.saved_logits c
    = heap s1 !! MonotonicAttentionCpu.saved_logits c →
  heap s2 !! MonotonicAttentionCpu.saved_phis c
    = heap s1 !! MonotonicAttentionCpu.saved_phis c →
  heap s2 !! grad = Some g → has_shape g Sn Tn →
  ∃ out s3 G,
    MonotonicAttentionCpu.backward c grad s2 = (Returns out, s3)
    ∧ heap s3 !! out = Some G
    ∧ has_shape G Sn Tn
    ∧ ∀ p q, (p < Sn)%nat → (q < Tn)%nat →
        ∃ J : nat → nat → R,
          (∀ i k, (i < Sn)%nat → (k < Tn)%nat →
             derivable_pt_lim
               (λ t, forward_prob_cell (set_logit L p q t) i k)
               (cell L p q) (J i k))
          ∧ cell G p q = Rsum Sn (λ i, Rsum Tn (λ k, cell g i k * J i k)).
Proof.
  intros Hl HL Hfwd Hsl Hsp Hg Hgs.
  assert ((1 ≤ Sn)%nat ∧ (1 ≤ Tn)%nat) as [HS HT].
  { unfold MonotonicAttentionCpu.forward, bind in Hfwd.
    destruct (forward_pass_cpu_ logits s) as [[r | e] s'] eqn:E; [| done].
    exact (forward_pass_cpu_returns _ _ _ _ _ _ _ Hl HL E). }
  rewrite (forward_run _ _ _ _ _ Hl HL HS HT) in Hfwd.
  injection Hfwd as <- <- <-.
  cbn [MonotonicAttentionCpu.saved_logits MonotonicAttentionCpu.saved_phis]
    in Hsl, Hsp.
  pose proof (lookup_lt_Some _ _ _ Hl) as Hlen.
  rewrite heap_set_heap in Hsl, Hsp.
  rewrite lookup_app_l, Hl in Hsl by done.
  rewrite lookup_app_r in Hsp by lia.
  replace (length (heap s) + 1 - length (heap s))%nat with 1%nat in Hsp by lia.
  simpl in Hsp.
  rewrite (tensor_is_tabulate _ _ _ HL) in Hsl.
  rewrite (tensor_is_tabulate _ _ _ Hgs) in Hg.
  eexists _, _, _. split; [| split; [| split]].
  - apply (backward_run _ _ _ Sn Tn (cell L) (phi_cell L) (cell g));
      [apply Hsl | apply Hsp | apply Hg | done].
  - rewrite heap_set_heap, lookup_app_r by lia.
    replace (length (heap s2) + 2 - length (heap s2))%nat with 2%nat by lia.
    reflexivity.
  - apply has_shape_tabulate.
  - intros p q Hp Hq.
    destruct (grad_logits_cell_vjp Sn Tn (cell L) (cell g) p q HS Hp Hq)
      as (J & HJ & HG).
    exists J. split.
    + intros i k Hi Hk.
      eapply derivable_pt_lim_ext; [| apply (HJ i k)].
      intros t. simpl.
      rewrite (tensor_is_tabulate _ _ _ HL) at 1.
      rewrite set_logit_tabulate by done.
      by rewrite forward_prob_cell_tabulate.
    + rewrite cell_tabulate by done. apply HG.
Qed.

Lemma backward_is_vector_jacobian_product_witness :
  ∃ out s3 G,
    MonotonicAttentionCpu.backward (MonotonicAttentionCpu.Ctx 0 3) 1
      (snd (MonotonicAttentionCpu.forward 0
              (initial_state [Tensor 1 [[0]; [0]]; Tensor 1 [[1]; [1]]])))
    = (Returns out, s3)
    ∧ heap s3 !! out = Some G
    ∧ has_shape G 2 1.
Proof.
  destruct (backward_is_vector_jacobian_product
              (initial_state [Tensor 1 [[0]; [0]]; Tensor 1 [[1]; [1]]])
              0 (Tensor 1 [[0]; [0]]) 2 1
              (MonotonicAttentionCpu.Ctx 0 3) 4
              (snd (MonotonicAttentionCpu.forward 0
                      (initial_state
                         [Tensor 1 [[0]; [0]]; Tensor 1 [[1]; [1]]])))
              (snd (MonotonicAttentionCpu.forward 0
                      (initial_state
                         [Tensor 1 [[0]; [0]]; Tensor 1 [[1]; [1]]])))
              1 (Tensor 1 [[1]; [1]]))
    as (out & s3 & G & H1 & H2 & H3 & _).
  - reflexivity.
  - repeat split. repeat constructor.
  - reflexivity.
  - reflexivity.
  - reflexivity.
  - reflexivity.
  - repeat split. repeat constructor.
  - by exists out, s3, G.
Defined.

(** * Probability mass of the forward table *)



(** One step of the recurrence moves mass along the two branches, whose
    weights add up to one, and so does not create any. *)
Lemma mass_step n (e a b : nat → R) :
  (∀ j, 0 <= e j) → (∀ j, 0 <= a j) → (∀ j, 0 <= b j) →
  (∀ j, a j + b j = 1) →
  Rsum n (λ j, e (S j) * a (S j) + e j * b j) <= Rsum (S n) e.
Proof.
  intros He Ha Hb Hab.
  assert (Rsum n (λ j, e (S j) * a (S j) + e j * b j) + e n * b n
          <= Rsum (S n) e) as H.
  { induction n as [| n IH].
    - simpl. pose proof (He O). pose proof (Ha O). pose proof (Hab O). nra.
    - cbn [Rsum] in *. pose proof (Hab (S n)). nra. }
  pose proof (He n). pose proof (Hb n). nra.
Qed.

Lemma mass_row0 lp n :
  (2 ≤ n)%nat →
  Rsum n (λ j, exp (phi_rec lp O j)) = 1 + INR (n - 1) * exp MIN_LOG_PROB.
Proof.
  intros Hn. destruct n as [| [| n]]; [lia | lia |]. clear Hn.
  induction n as [| n IH].
  - simpl. rewrite exp_0. lra.
  - change (Rsum (S (S (S n))) (λ j, exp (phi_rec lp O j)))
      with (Rsum (S (S n)) (λ j, exp (phi_rec lp O j))
            + exp MIN_LOG_PROB).
    rewrite IH. replace (S (S (S n)) - 1)%nat with (S (S (S n) - 1)) by lia.
    rewrite S_INR. lra.
Qed.

Lemma mass_bound lp Tn i :
  (1 ≤ Tn)%nat →
  Rsum (S Tn) (λ j, exp (phi_rec lp i j))
  <= 1 + (INR Tn + INR i) * exp MIN_LOG_PROB.
Proof.
  intros HT. induction i as [| i IH].
  - rewrite mass_row0 by lia. replace (S Tn - 1)%nat with Tn by lia.
    simpl. lra.
  - rewrite Rsum_shift. rewrite phi_rec_col0.
    rewrite (Rsum_ext Tn _
               (λ j, exp (phi_rec lp i (S j)) * exp (_pos_log_prob (lp i (S j)))
                     + exp (phi_rec lp i j) * exp (_neg_log_prob (lp i j)))).
    2: { intros j _. cbn [phi_rec]. by rewrite exp_logaddexp, !exp_plus. }
    pose proof (mass_step Tn (λ j, exp (phi_rec lp i j))
                  (λ j, exp (_pos_log_prob (lp i j)))
                  (λ j, exp (_neg_log_prob (lp i j)))) as Hstep.
    simpl in Hstep.
    assert (Rsum Tn
              (λ j, exp (phi_rec lp i (S j)) * exp (_pos_log_prob (lp i (S j)))
                    + exp (phi_rec lp i j) * exp (_neg_log_prob (lp i j)))
            <= Rsum (S Tn) (λ j, exp (phi_rec lp i j))) as H.
    { apply Hstep; intros; try apply Rlt_le, exp_pos.
      apply exp_pos_neg_log_prob. }
    rewrite S_INR. lra.
Qed.



(** * The claims on the forward pass *)

Lemma cell_pad_left L Sn Tn i j :
  has_shape L Sn Tn → (i < Sn)%nat → (j ≤ Tn)%nat →
  cell (pad_left 0 L) i j = padded (cell L) i j.
Proof.
  intros HL Hi Hj. rewrite (tensor_is_tabulate _ _ _ HL) at 1.
  rewrite pad_left_tabulate, cell_tabulate by lia. done.
Qed.

(** C1, as amended: for logits [L] of shape [(src_len, tgt_len)] with
    [src_len >= 1] and [tgt_len >= 1], [forward_pass_cpu_] returns [phi] and
    [prob] of the shape of [L]; there is a padded table [P] with
    [P[0,1] = 0], [MIN_LOG_PROB] in the rest of row 0 and in column 0, whose
    rows [i = 1 .. src_len-1] satisfy, for [j = 1 .. tgt_len],
    [P[i,j] = logaddexp (P[i-1,j] + pos_log_prob (Lp[i-1,j]),
                         P[i-1,j-1] + neg_log_prob (Lp[i-1,j-1]))]
    over the logits [Lp] padded with a zero column on the left; [phi] is [P]
    without its column 0 and [prob[i,j] = phi[i,j] + neg_log_prob (L[i,j])]. *)
Theorem forward_pass_cpu_recurrence s logits L Sn Tn :
  heap s !! logits = Some L → has_shape L Sn Tn →
  (1 ≤ Sn)%nat → (1 ≤ Tn)%nat →
  ∃ phis probs s' phi prob P,
    forward_pass_cpu_ logits s = (Returns (phis, probs), s')
    ∧ heap s' !! phis = Some phi ∧ heap s' !! probs = Some prob
    ∧ has_shape phi Sn Tn ∧ has_shape prob Sn Tn ∧ has_shape P Sn (S Tn)
    ∧ cell P 0 1 = 0
    ∧ (∀ j, (j ≤ Tn)%nat → j ≠ 1%nat → cell P 0 j = MIN_LOG_PROB)
    ∧ (∀ i, (i < Sn)%nat → cell P i 0 = MIN_LOG_PROB)
    ∧ (∀ i j, (1 ≤ i)%nat → (i < Sn)%nat → (1 ≤ j)%nat → (j ≤ Tn)%nat →
         cell P i j
         = _logaddexp
             (cell P (i - 1) j + _pos_log_prob (cell (pad_left 0 L) (i - 1) j))
             (cell P (i - 1) (j - 1)
              + _neg_log_prob (cell (pad_left 0 L) (i - 1) (j - 1))))
    ∧ (∀ i k, (i < Sn)%nat → (k < Tn)%nat → cell phi i k = cell P i (S k))
    ∧ (∀ i k, (i < Sn)%nat → (k < Tn)%nat →
         cell prob i k = cell phi i k + _neg_log_prob (cell L i k)).
Proof.
  intros Hl HL HS HT.
  exists (length (heap s) + 1)%nat, (length (heap s) + 2)%nat.
  eexists _, (tabulate Sn Tn (phi_cell L)), (tabulate Sn Tn (prob_cell L)),
    (tabulate Sn (S Tn) (phi_rec (padded (cell L)))).
  split; [by apply forward_pass_cpu_run |].
  rewrite heap_set_heap.
  repeat split; try apply has_shape_tabulate.
  - rewrite lookup_app_r by lia.
    by replace (length (heap s) + 1 - length (heap s))%nat with 1%nat by lia.
  - rewrite lookup_app_r by lia.
    by replace (length (heap s) + 2 - length (heap s))%nat with 2%nat by lia.
  - by rewrite cell_tabulate by lia.
  - intros j Hj Hj1. rewrite cell_tabulate by lia. simpl. by case_decide.
  - intros i Hi. rewrite cell_tabulate by lia. apply phi_rec_col0.
  - intros i j Hi HiS Hj HjT. rewrite !cell_tabulate by lia.
    rewrite !(cell_pad_left L Sn Tn) by (done || lia).
    destruct i as [| i]; [lia |]. destruct j as [| j]; [lia |].
    replace (S i - 1)%nat with i by lia.
    replace (S j - 1)%nat with j by lia. done.
  - intros i k Hi Hk. by rewrite !cell_tabulate by lia.
  - intros i k Hi Hk. by rewrite !cell_tabulate by lia.
Qed.

Lemma forward_pass_cpu_recurrence_witness :
  ∃ phis probs s' phi prob,
    forward_pass_cpu_ 0 (initial_state [Tensor 1 [[1]; [2]]])
    = (Returns (phis, probs), s')
    ∧ heap s' !! phis = Some phi ∧ heap s' !! probs = Some prob
    ∧ has_shape phi 2 1 ∧ has_shape prob 2 1.
Proof.
  destruct (forward_pass_cpu_recurrence
              (initial_state [Tensor 1 [[1]; [2]]]) 0 (Tensor 1 [[1]; [2]]) 2 1)
    as (phis & probs & s' & phi & prob & P & H1 & H2 & H3 & H4 & H5 & _).
  - reflexivity.
  - repeat split. repeat constructor.
  - lia.
  - lia.
  - by exists phis, probs, s', phi, prob.
Defined.

(** C1 as stated fails when the target axis is empty: the logits of shape
    [(1, 0)] have [src_len >= 1], and [forward_pass_cpu_] raises on them
    (the write to [phis[..., 0, 1]] is out of range). *)
Lemma forward_pass_cpu_empty_target_raises :
  has_shape (Tensor 0 [[]]) 1 0
  ∧ fst (forward_pass_cpu_ 0 (initial_state [Tensor 0 [[]]]))
    = Raises IndexError.
Proof. split; [repeat split; repeat constructor | reflexivity]. Qed.

(** C9: for [src_len = tgt_len = 1] and the logit [x], [forward_pass_cpu_]
    returns [phi[0,0] = 0] and [prob[0,0] = neg_log_prob x]. *)
Theorem forward_pass_cpu_single_cell s logits x :
  heap s !! logits = Some (Tensor 1 [[x]]) →
  ∃ phis probs s',
    forward_pass_cpu_ logits s = (Returns (phis, probs), s')
    ∧ heap s' !! phis = Some (Tensor 1 [[0]])
    ∧ heap s' !! probs = Some (Tensor 1 [[_neg_log_prob x]]).
Proof.
  intros Hl.
  assert (has_shape (Tensor 1 [[x]]) 1 1) as HL
    by (repeat split; repeat constructor).
  eexists _, _, _.
  split; [by apply (forward_pass_cpu_run _ _ _ 1 1 Hl HL) |].
  rewrite heap_set_heap. split.
  - rewrite lookup_app_r by lia.
    by replace (length (heap s) + 1 - length (heap s))%nat with 1%nat by lia.
  - rewrite lookup_app_r by lia.
    replace (length (heap s) + 2 - length (heap s))%nat with 2%nat by lia.
    simpl. unfold tabulate, tab, prob_cell, phi_cell, cell, cell_opt. simpl.
    by rewrite Rplus_0_l.
Qed.

Lemma forward_pass_cpu_single_cell_witness :
  ∃ phis probs s',
    forward_pass_cpu_ 0 (initial_state [Tensor 1 [[3]]])
    = (Returns (phis, probs), s')
    ∧ heap s' !! phis = Some (Tensor 1 [[0]])
    ∧ heap s' !! probs = Some (Tensor 1 [[_neg_log_prob 3]]).
Proof.
  apply (forward_pass_cpu_single_cell (initial_state [Tensor 1 [[3]]]) 0 3).
  reflexivity.
Defined.

Lemma exp_scale_lower n x : 2 <= exp x → 2 ^ n <= exp (INR n * x).
Proof.
  intros Hx. induction n as [| n IH].
  - simpl. rewrite Rmult_0_l, exp_0. lra.
  - rewrite S_INR.
    replace ((INR n + 1) * x) with (INR n * x + x) by ring.
    rewrite exp_plus. simpl.
    assert (0 < 2 ^ n) by (apply pow_lt; lra).
    pose proof (exp_pos (INR n * x)). nra.
Qed.




(** Over the reals the tolerance cannot be dropped, since the sentinel is
    finite: on the logits [[20000], [-20000]] the cell [prob[1,0]] exceeds 0
    by about [exp MIN_LOG_PROB / 2].  In floating point that excess is below
    the resolution at 1 and the cell is [0.0]. *)
Lemma forward_prob_exceeds_one :
  1 < exp (forward_prob_cell (Tensor 1 [[20000]; [- 20000]]) 1 0).
Proof.
  assert (has_shape (Tensor 1 [[20000]; [- 20000]]) 2 1) as HL
    by (repeat split; repeat constructor).
  rewrite (tensor_is_tabulate _ _ _ HL).
  rewrite forward_prob_cell_tabulate by lia.
  cbn [phi_rec padded]. unfold cell, cell_opt. simpl.
  rewrite exp_plus, exp_logaddexp, !exp_plus, exp_0.
  rewrite exp_pos_log_prob, !exp_neg_log_prob, exp_0.
  unfold MIN_LOG_PROB.
  set (dlt := exp (- 10000)).
  assert (exp (- 20000) = dlt * dlt) as ->.
  { unfold dlt. rewrite <- exp_plus. f_equal. lra. }
  assert (exp (Ropp 20000) = dlt * dlt) as ->.
  { unfold dlt. rewrite <- exp_plus. f_equal. lra. }
  assert (0 < dlt) as Hpos by apply exp_pos.
  assert (dlt * 10001 <= 1) as Hsmall.
  { pose proof (exp_ineq1_le 10000) as H.
    assert (dlt * exp 10000 = 1) as E.
    { unfold dlt. rewrite <- exp_plus, <- exp_0. f_equal. lra. }
    nra. }
  assert (0 < dlt * dlt) as Hsq by nra.
  replace ((1 * / (1 + dlt * dlt) + dlt * / (1 + 1)) * / (1 + dlt * dlt))
    with ((1 + dlt / 2 * (1 + dlt * dlt))
          / ((1 + dlt * dlt) * (1 + dlt * dlt))) by (field; lra).
  apply (Rmult_lt_reg_r ((1 + dlt * dlt) * (1 + dlt * dlt))); [nra |].
  unfold Rdiv. rewrite Rmult_assoc, Rinv_l by nra. nra.
Qed.

(** * Which tensor objects a run writes *)

Lemma frame_refl n s : (n ≤ length (heap s))%nat → frame n s s.
Proof. by intros. Qed.

Lemma frame_trans n s1 s2 s3 : frame n s1 s2 → frame n s2 s3 → frame n s1 s3.
Proof.
  intros (? & E1 & W1 & U1) (? & E2 & W2 & U2).
  repeat split; [done | congruence ..].
Qed.

Lemma frame_lookup n s s' l t :
  frame n s s' → (l < n)%nat → heap s !! l = Some t → heap s' !! l = Some t.
Proof.
  intros (_ & E & _) Hl Ht.
  rewrite <- (lookup_take_lt _ n) by done. rewrite E.
  by rewrite lookup_take_lt.
Qed.

Section Preserves.
Context (n : nat).

Lemma preserves_ret {A} (a : A) (Q : A → Prop) : Q a → preserves n (ret a) Q.
Proof.
  intros HQ s Hs. split; [by apply frame_refl |].
  simpl. by intros ? [= <-].
Qed.

Lemma preserves_raise {A} e (Q : A → Prop) : preserves n (raise e) Q.
Proof. intros s Hs. split; [by apply frame_refl | done]. Qed.

Lemma preserves_bind {A B} (m : M A) (k : A → M B) Q Q' :
  preserves n m Q → (∀ a, Q a → preserves n (k a) Q') →
  preserves n (bind m k) Q'.
Proof.
  intros Hm Hk s Hs. destruct (Hm s Hs) as [Hf HQ]. unfold bind.
  destruct (m s) as [[a | e] s1]; simpl in *; [| done].
  destruct (Hk a (HQ a eq_refl) s1 (proj1 Hf)) as [Hf' HQ'].
  split; [by eapply frame_trans | done].
Qed.

Lemma preserves_weaken {A} (m : M A) (Q Q' : A → Prop) :
  preserves n m Q → (∀ a, Q a → Q' a) → preserves n m Q'.
Proof. intros Hm HQ s Hs. destruct (Hm s Hs). split; auto. Qed.

Lemma preserves_load l : preserves n (load l) (λ _, True).
Proof.
  intros s Hs. unfold load. destruct (heap s !! l); by split.
Qed.

Lemma preserves_alloc t : preserves n (alloc t) (λ l, (n ≤ l)%nat).
Proof.
  intros s Hs. unfold alloc. simpl. split.
  - repeat split; simpl; [rewrite length_app; lia | by rewrite take_app_le].
  - by intros ? [= <-].
Qed.

Lemma preserves_empty_like t : preserves n (empty_like t) (λ l, (n ≤ l)%nat).
Proof. intros s Hs. unfold empty_like. by apply preserves_alloc. Qed.

Lemma preserves_store l t : (n ≤ l)%nat → preserves n (store l t) (λ _, True).
Proof.
  intros Hl s Hs. unfold store. simpl. split; [| done].
  repeat split; simpl; [by rewrite length_insert | by apply take_insert_ge].
Qed.

Lemma preserves_row_of l i : preserves n (row_of l i) (λ _, True).
Proof.
  eapply preserves_bind; [apply preserves_load |]. intros t _.
  destruct (rows t !! i); [by apply preserves_ret | apply preserves_raise].
Qed.

Lemma preserves_for {A} (xs : list A) body :
  (∀ x, preserves n (body x) (λ _, True)) →
  preserves n (for_ xs body) (λ _, True).
Proof.
  intros Hb. induction xs as [| x xs IH]; [by apply preserves_ret |].
  simpl. eapply preserves_bind; [apply Hb | done].
Qed.

(** A write through a tensor object allocated after the first [n]. *)
Ltac preserves_write l :=
  eapply preserves_bind; [apply preserves_load |]; intros ? _;
  repeat first
    [ by apply preserves_store
    | apply preserves_raise
    | case_decide
    | match goal with |- context [match ?o with _ => _ end] => destruct o end ].

Lemma preserves_fill_col l j v :
  (n ≤ l)%nat → preserves n (fill_col l j v) (λ _, True).
Proof. intros. unfold fill_col. preserves_write l. Qed.

Lemma preserves_fill_row l i v :
  (n ≤ l)%nat → preserves n (fill_row l i v) (λ _, True).
Proof. intros. unfold fill_row. preserves_write l. Qed.

Lemma preserves_set_cell l i j v :
  (n ≤ l)%nat → preserves n (set_cell l i j v) (λ _, True).
Proof. intros. unfold set_cell. preserves_write l. Qed.

Lemma preserves_assign_row_from l i k vs :
  (n ≤ l)%nat → preserves n (assign_row_from l i k vs) (λ _, True).
Proof. intros. unfold assign_row_from. preserves_write l. Qed.

Lemma preserves_add_row l i vs :
  (n ≤ l)%nat → preserves n (add_row l i vs) (λ _, True).
Proof. intros. unfold add_row. preserves_write l. Qed.

Lemma preserves_add_row_but_last l i vs :
  (n ≤ l)%nat → preserves n (add_row_but_last l i vs) (λ _, True).
Proof. intros. unfold add_row_but_last. preserves_write l. Qed.

Lemma preserves_forward_pass_cpu_ logits :
  preserves n (forward_pass_cpu_ logits) (λ _, True).
Proof.
  unfold forward_pass_cpu_.
  eapply preserves_bind; [apply preserves_load |]. intros lt _.
  eapply preserves_bind; [apply preserves_empty_like |]. intros phis Hphis.
  eapply preserves_bind; [by apply preserves_fill_col |]. intros _ _.
  eapply preserves_bind; [by apply preserves_fill_row |]. intros _ _.
  eapply preserves_bind; [by apply preserves_set_cell |]. intros _ _.
  eapply preserves_bind.
  { apply preserves_for. intros i.
    eapply preserves_bind; [apply preserves_row_of |]. intros p _.
    destruct (rows _ !! _);
      [by apply preserves_assign_row_from | apply preserves_raise]. }
  intros _ _.
  eapply preserves_bind; [apply preserves_load |]. intros pt _.
  eapply preserves_bind; [apply preserves_alloc |]. intros phis' _.
  eapply preserves_bind; [apply preserves_load |]. intros pv _.
  eapply preserves_bind; [apply preserves_alloc |]. intros probs _.
  by apply preserves_ret.
Qed.

Lemma preserves_backward_pass_cpu_ logits phis grad_phis :
  (n ≤ grad_phis)%nat →
  preserves n (backward_pass_cpu_ logits phis grad_phis) (λ _, True).
Proof.
  intros Hg. unfold backward_pass_cpu_.
  eapply preserves_bind; [apply preserves_load |]. intros lt _.
  eapply preserves_bind; [apply preserves_load |]. intros gt _.
  eapply preserves_bind; [apply preserves_empty_like |]. intros gl Hgl.
  eapply preserves_bind; [by apply preserves_fill_row |]. intros _ _.
  eapply preserves_bind.
  { apply preserves_for. intros i.
    do 4 (eapply preserves_bind; [apply preserves_row_of |]; intros ? _).
    eapply preserves_bind; [by apply preserves_assign_row_from |].
    intros _ _.
    eapply preserves_bind; [by apply preserves_add_row_but_last |].
    intros _ _.
    eapply preserves_bind; [by apply preserves_add_row |]. intros _ _.
    by apply preserves_add_row_but_last. }
  intros _ _.
  eapply preserves_bind; [apply preserves_load |]. intros ? _.
  eapply preserves_weaken; [apply preserves_alloc | done].
Qed.

Lemma preserves_backward c grad :
  preserves n (MonotonicAttentionCpu.backward c grad) (λ _, True).
Proof.
  unfold MonotonicAttentionCpu.backward.
  eapply preserves_bind; [apply preserves_load |]. intros gt _.
  eapply preserves_bind; [apply preserves_alloc |]. intros clone Hc.
  by apply preserves_backward_pass_cpu_.
Qed.
End Preserves.

(** * The claims on mutation, warnings and the structure of the passes *)

(** C10: neither pass changes a tensor object that exists when it is
    called: after any run of [forward_pass_cpu_], and after any run of
    [MonotonicAttentionCpu.backward], returning or raising, every tensor of
    the heap of the call (the logits; the saved logits, the saved table and
    the upstream gradient) holds what it held.  The writes of
    [backward_pass_cpu_] go to the clone and to the new [grad_logits]. *)
Theorem passes_leave_inputs_unchanged s logits c grad :
  (∀ l t, heap s !! l = Some t →
          heap (snd (forward_pass_cpu_ logits s)) !! l = Some t)
  ∧ (∀ l t, heap s !! l = Some t →
            heap (snd (MonotonicAttentionCpu.backward c grad s)) !! l = Some t).
Proof.
  split; intros l t Hl.
  - destruct (preserves_forward_pass_cpu_ (length (heap s)) logits s)
      as [Hf _]; [done |].
    eapply frame_lookup; [apply Hf | by eapply lookup_lt_Some | done].
  - destruct (preserves_backward (length (heap s)) c grad s) as [Hf _];
      [done |].
    eapply frame_lookup; [apply Hf | by eapply lookup_lt_Some | done].
Qed.

(** Called on the upstream gradient itself, [backward_pass_cpu_] does change
    it: the clone of [MonotonicAttentionCpu.backward] is what keeps the
    caller's tensor intact. *)
Lemma backward_pass_cpu_mutates_grad_phis :
  heap (snd (backward_pass_cpu_ 0 1 2
               (initial_state [Tensor 1 [[0]; [0]]; Tensor 1 [[0]; [0]];
                               Tensor 1 [[0]; [1]]]))) !! 2%nat
  ≠ Some (Tensor 1 [[0]; [1]]).
Proof.
  cbn. intros [= E]. revert E.
  rewrite Rplus_0_l, Rmult_1_l. pose proof (exp_pos (0 + _pos_log_prob 0 - 0)).
  lra.
Qed.

Lemma has_shape_sizes L Sn Tn :
  has_shape L Sn Tn → size_src L = Sn ∧ size_tgt L = Tn.
Proof. by intros (? & ? & _). Qed.




(** C4, as amended: [backward_pass_cpu_] first allocates [grad_logits] with
    a zero last source row and computes the direct contribution
    [extra_grad = d_neg_log_prob (L) * grad_prob] into a tensor of its own;
    the accumulator [grad_phis] enters the loop holding the upstream
    gradient alone.  The loop then runs the steps [i = src_len-2] down to
    [0], and [extra_grad] is added to [grad_logits] after the loop. *)
Theorem backward_pass_cpu_structure s logits phis grad_phis L g Sn Tn :
  heap s !! logits = Some L → heap s !! grad_phis = Some g →
  has_shape L Sn Tn → has_shape g Sn Tn → (1 ≤ Sn)%nat →
  ∃ grad_logits extra_grad s0 GL,
    backward_seed logits grad_phis s
    = (Returns (Sn, grad_logits, extra_grad), s0)
    ∧ heap s0 !! grad_phis = Some g
    ∧ heap s0 !! grad_logits = Some GL
    ∧ has_shape GL Sn Tn
    ∧ (∀ k, (k < Tn)%nat → cell GL (Sn - 1) k = 0)
    ∧ (∀ i k, (i < Sn)%nat → (k < Tn)%nat →
         cell extra_grad i k = _d_neg_log_prob (cell L i k) * cell g i k)
    ∧ backward_pass_cpu_ logits phis grad_phis s
      = (do! for_ (rev (seq 0 (Sn - 1)))
               (backward_step logits phis grad_phis grad_logits) in
         let! gl := load grad_logits in
         alloc (tensor_add gl extra_grad)) s0
    ∧ (∀ k, (k < Sn - 1)%nat →
         rev (seq 0 (Sn - 1)) !! k = Some (Sn - 2 - k)%nat).
Proof.
  intros Hl Hg HL Hgs HS.
  pose proof (lookup_lt_Some _ _ _ Hg) as Hlen.
  destruct (has_shape_sizes _ _ _ HL) as [ES _].
  assert (backward_seed logits grad_phis s
          = (Returns (Sn, length (heap s),
                      tensor_mul (tensor_map _d_neg_log_prob L) g),
             set_heap (heap s ++
               [tabulate Sn Tn
                  (λ i' j, if decide (i' = (Sn - 1)%nat) then 0
                           else uninit s i' j)]) s)) as Eseed.
  { unfold backward_seed.
    rewrite (bind_run _ _ _ _ _ (load_run _ _ _ Hl)), ES.
    rewrite (bind_run _ _ _ _ _ (load_run _ _ _ Hg)).
    rewrite (tensor_is_tabulate _ _ _ Hgs) at 1.
    rewrite (bind_run _ _ _ _ _ (empty_like_run _ _ _ _)).
    erewrite bind_run; cycle 1.
    { eapply fill_row_run; [apply lookup_alloc_new | lia]. }
    by rewrite heap_set_heap, set_heap_twice, insert_alloc_new. }
  eexists _, _, _, _. split; [apply Eseed |].
  rewrite heap_set_heap.
  split; [by rewrite lookup_app_l |].
  split; [apply lookup_alloc_new |].
  split; [apply has_shape_tabulate |].
  split; [| split; [| split]].
  - intros k Hk. rewrite cell_tabulate by lia. by case_decide.
  - intros i k Hi Hk.
    rewrite (tensor_is_tabulate _ _ _ HL), (tensor_is_tabulate _ _ _ Hgs) at 1.
    unfold tensor_mul.
    by rewrite tensor_map_tabulate, tensor_zip_tabulate, cell_tabulate.
  - unfold backward_pass_cpu_.
    rewrite (bind_run _ _ _ _ _ (load_run _ _ _ Hl)), ES.
    rewrite (bind_run _ _ _ _ _ (load_run _ _ _ Hg)).
    rewrite (tensor_is_tabulate _ _ _ Hgs) at 1.
    rewrite (bind_run _ _ _ _ _ (empty_like_run _ _ _ _)).
    erewrite bind_run; cycle 1.
    { eapply fill_row_run; [apply lookup_alloc_new | lia]. }
    by rewrite heap_set_heap, set_heap_twice, insert_alloc_new.
  - intros k Hk. rewrite rev_alt.
    change (rev_append (seq 0 (Sn - 1)) []) with (reverse (seq 0 (Sn - 1))).
    rewrite reverse_lookup; rewrite length_seq; [| lia].
    rewrite lookup_seq_lt by lia. f_equal. lia.
Qed.

Lemma backward_pass_cpu_structure_witness :
  ∃ grad_logits extra_grad s0,
    backward_seed 0 1
      (initial_state [Tensor 1 [[0]; [0]]; Tensor 1 [[1]; [1]]])
    = (Returns (2%nat, grad_logits, extra_grad), s0)
    ∧ heap s0 !! 1%nat = Some (Tensor 1 [[1]; [1]]).
Proof.
  destruct (backward_pass_cpu_structure
              (initial_state [Tensor 1 [[0]; [0]]; Tensor 1 [[1]; [1]]])
              0 0 1 (Tensor 1 [[0]; [0]]) (Tensor 1 [[1]; [1]]) 2 1)
    as (gl & extra & s0 & GL & H1 & H2 & _).
  - reflexivity.
  - reflexivity.
  - repeat split. repeat constructor.
  - repeat split. repeat constructor.
  - lia.
  - by exists gl, extra, s0.
Defined.

(** C4 as stated fails on the seed of the accumulator: for the logit [0]
    and the upstream gradient [1], the accumulator enters the loop holding
    [1], not [1 + d_neg_log_prob (0) * 1]. *)
Lemma backward_seed_is_upstream_gradient_only :
  heap (snd (backward_seed 0 1
               (initial_state [Tensor 1 [[0]]; Tensor 1 [[1]]]))) !! 1%nat
  = Some (Tensor 1 [[1]])
  ∧ heap (snd (backward_pass_cpu_ 0 0 1
                 (initial_state [Tensor 1 [[0]]; Tensor 1 [[1]]]))) !! 1%nat
    = Some (Tensor 1 [[1]])
  ∧ Tensor 1 [[1]] ≠ Tensor 1 [[1 + _d_neg_log_prob 0 * 1]].
Proof.
  split; [reflexivity |]. split; [reflexivity |].
  intros [= E]. revert E. unfold _d_neg_log_prob.
  pose proof (exp_pos (- 0)).
  assert (- 1 / (1 + exp (- 0)) < 0); [| lra].
  apply Rdiv_neg_pos; lra.
Qed.

(** * Device dispatch *)

Lemma lru_cache_hit {V} (f : string → V) k cache v :
  cache !! k = Some v → lru_cache f k cache = (v, cache).
Proof. intros E. unfold lru_cache. by rewrite E. Qed.

Lemma lru_cache_stores {V} (f : string → V) k cache :
  snd (lru_cache f k cache) !! k = Some (fst (lru_cache f k cache)).
Proof.
  unfold lru_cache. destruct (cache !! k) as [v |] eqn:E; simpl; [done |].
  apply lookup_insert_eq.
Qed.

Lemma reachable_consistent triton cache :
  reachable triton cache →
  ∀ k v, cache !! k = Some v → v = get_monotonic_attention_fn_body triton k.
Proof.
  induction 1 as [| dt cache Hr IH]; intros k v Hk; [done |].
  unfold get_monotonic_attention_fn, lru_cache in Hk.
  destruct (cache !! dt) as [w |] eqn:E; simpl in Hk; [by apply IH |].
  destruct (decide (dt = k)) as [-> | Hne].
  - rewrite lookup_insert_eq in Hk. congruence.
  - rewrite lookup_insert_ne in Hk by done. by apply IH.
Qed.

Lemma get_monotonic_attention_fn_value triton cache device_type :
  reachable triton cache →
  fst (get_monotonic_attention_fn triton device_type cache)
  = get_monotonic_attention_fn_body triton device_type.
Proof.
  intros Hr. unfold get_monotonic_attention_fn, lru_cache.
  destruct (cache !! device_type) as [v |] eqn:E; simpl; [| done].
  by eapply reachable_consistent.
Qed.

(** C7: on a cache built by earlier calls, [get_monotonic_attention_fn]
    returns the CPU implementation for every device type other than
    ["cuda"], and for ["cuda"] too when Triton is not supported; the result
    is stored under the device type, a later call with that device type
    returns the stored callable whatever the runtime then says, and any two
    calls with equal device types return the same callable. *)
Theorem get_monotonic_attention_fn_dispatch triton cache device_type :
  reachable triton cache →
  (device_type ≠ "cuda" →
   fst (get_monotonic_attention_fn triton device_type cache)
   = monotonic_attention_cpu_fn)
  ∧ (triton = false →
     fst (get_monotonic_attention_fn triton "cuda" cache)
     = monotonic_attention_cpu_fn)
  ∧ snd (get_monotonic_attention_fn triton device_type cache) !! device_type
    = Some (fst (get_monotonic_attention_fn triton device_type cache))
  ∧ (∀ triton',
       get_monotonic_attention_fn triton' device_type
         (snd (get_monotonic_attention_fn triton device_type cache))
       = get_monotonic_attention_fn triton device_type cache)
  ∧ (∀ cache', reachable triton cache' →
       fst (get_monotonic_attention_fn triton device_type cache')
       = fst (get_monotonic_attention_fn triton device_type cache)).
Proof.
  intros Hr. repeat split.
  - intros Hne. rewrite get_monotonic_attention_fn_value by done.
    unfold get_monotonic_attention_fn_body.
    by rewrite bool_decide_eq_true_2.
  - intros ->. rewrite get_monotonic_attention_fn_value by done.
    unfold get_monotonic_attention_fn_body. by destruct (bool_decide _).
  - apply lru_cache_stores.
  - intros triton'. unfold get_monotonic_attention_fn.
    rewrite (lru_cache_hit _ _ _ _ (lru_cache_stores _ _ _)).
    by destruct (lru_cache _ _ _).
  - intros cache' Hr'. by rewrite !get_monotonic_attention_fn_value.
Qed.

Lemma get_monotonic_attention_fn_dispatch_witness :
  fst (get_monotonic_attention_fn true "cpu" ∅) = monotonic_attention_cpu_fn.
Proof.
  apply (get_monotonic_attention_fn_dispatch true ∅ "cpu").
  - apply reachable_empty.
  - discriminate.
Defined.

(** * The attention layer *)

Lemma neg_prob_to_phi_valid p :
  1 / 2 < p < 1 →
  neg_prob_to_phi p = Returns (- ln (1 / p - 1)) ∧ 0 < - ln (1 / p - 1).
Proof.
  intros [Hlo Hhi].
  assert (0 < / p) as Hq by (apply Rinv_0_lt_compat; lra).
  assert (p * / p = 1) as Hpq by (apply Rinv_r; lra).
  assert (0 < 1 / p - 1 < 1) as [H0 H1] by (unfold Rdiv; nra).
  split.
  - unfold neg_prob_to_phi. destruct (decide (p = 0)); [lra |].
    by destruct (decide (0 < 1 / p - 1)).
  - pose proof (ln_increasing _ _ H0 H1) as H. rewrite ln_1 in H. lra.
Qed.

Lemma Zdivide_or_not a b : (a | b)%Z ∨ ¬ (a | b)%Z.
Proof.
  destruct (decide (a = 0%Z)) as [-> | Ha].
  - destruct (decide (b = 0%Z)) as [-> | Hb]; [left; apply Z.divide_0_r |].
    right. intros H. by apply Z.divide_0_l in H.
  - rewrite <- Z.mod_divide by done.
    destruct (decide (b mod a = 0)%Z); tauto.
Qed.

Section Config.
Context (mode : string) (embed_dim num_heads : Z) (bias : bool)
        (kdim vdim : option Z) (gqa_factor : Z)
        (max_kv_cache_len : option Z) (clamp_prob : R) (soft_clamp : bool).

Local Abbreviation construct :=
  (MonotonicAttention.__init__ mode embed_dim num_heads bias kdim vdim
     gqa_factor max_kv_cache_len clamp_prob soft_clamp).

Lemma init_returns_iff :
  (∃ self, construct = Returns self)
  ↔ num_heads ≠ 0%Z ∧ gqa_factor ≠ 0%Z
    ∧ (num_heads | embed_dim)%Z ∧ (gqa_factor | num_heads)%Z
    ∧ 1 / 2 < clamp_prob < 1 ∧ (0 ≤ embed_dim / num_heads)%Z.
Proof.
  unfold MonotonicAttention.__init__, py_mod, py_floordiv, py_sqrt, assert_.
  destruct (decide (num_heads = 0%Z)) as [Hn | Hn]; simpl.
  { split; [by intros [? ?] | tauto]. }
  rewrite <- (Z.mod_divide embed_dim num_heads) by done.
  case_bool_decide as Hd1; simpl; [| split; [by intros [? ?] | tauto]].
  destruct (decide (gqa_factor = 0%Z)) as [Hg | Hg]; simpl.
  { split; [by intros [? ?] | tauto]. }
  rewrite <- (Z.mod_divide num_heads gqa_factor) by done.
  case_bool_decide as Hd2; simpl; [| split; [by intros [? ?] | tauto]].
  case_bool_decide as Hlo; simpl; [| split; [by intros [? ?] | tauto]].
  case_bool_decide as Hhi; simpl; [| split; [by intros [? ?] | tauto]].
  destruct (neg_prob_to_phi_valid clamp_prob) as [-> _]; [done |]. simpl.
  destruct (decide (embed_dim / num_heads < 0)%Z); simpl.
  - split; [by intros [? ?] | intros; lia].
  - split; [intros _; repeat split; done || lia | eauto].
Qed.

Lemma init_fields self :
  construct = Returns self →
  1 / 2 < clamp_prob < 1
  ∧ MonotonicAttention.mode self = mode
  ∧ MonotonicAttention.embed_dim self = embed_dim
  ∧ MonotonicAttention.num_heads self = num_heads
  ∧ MonotonicAttention.gqa_factor self = gqa_factor
  ∧ MonotonicAttention.soft_clamp self = soft_clamp
  ∧ MonotonicAttention.max_kv_cache_len self = max_kv_cache_len
  ∧ MonotonicAttention.clamp_value self = - ln (1 / clamp_prob - 1).
Proof.
  intros E.
  destruct (proj1 init_returns_iff (ex_intro _ self E))
    as (Hn & Hg & _ & _ & Hp & _).
  revert E.
  unfold MonotonicAttention.__init__, py_mod, py_floordiv, py_sqrt, assert_.
  destruct (decide (num_heads = 0%Z)); [done |]. simpl.
  case_bool_decide; [| done]. simpl.
  destruct (decide (gqa_factor = 0%Z)); [done |]. simpl.
  case_bool_decide; [| done]. simpl.
  rewrite !bool_decide_eq_true_2 by tauto. simpl.
  destruct (neg_prob_to_phi_valid clamp_prob Hp) as [-> _]. simpl.
  destruct (decide (embed_dim / num_heads < 0)%Z); [done |]. simpl.
  by intros [= <-].
Qed.

(** C6, as amended: construction raises whenever [embed_dim] is not
    divisible by [num_heads], or [num_heads] is not divisible by
    [gqa_factor], or [clamp_prob] is not strictly between 0.5 and 1.0: the
    failed check raises [AssertionError], or the [%] of a check raises
    [ZeroDivisionError] on a zero divisor, before any field is stored.
    Passing the three checks does not guarantee that the constructor
    accepts.  A configuration that is accepted is stored as it was given. *)
Theorem init_rejects_failed_checks :
  (¬ (num_heads | embed_dim)%Z ∨ ¬ (gqa_factor | num_heads)%Z
   ∨ ¬ (1 / 2 < clamp_prob < 1) →
   MonotonicAttention.__init__ mode embed_dim num_heads bias kdim vdim
     gqa_factor max_kv_cache_len clamp_prob soft_clamp
   = Raises AssertionError
   ∨ MonotonicAttention.__init__ mode embed_dim num_heads bias kdim vdim
       gqa_factor max_kv_cache_len clamp_prob soft_clamp
     = Raises ZeroDivisionError)
  ∧ (∀ self, MonotonicAttention.__init__ mode embed_dim num_heads bias kdim vdim
         gqa_factor max_kv_cache_len clamp_prob soft_clamp = Returns self →
       MonotonicAttention.mode self = mode
       ∧ MonotonicAttention.embed_dim self = embed_dim
       ∧ MonotonicAttention.num_heads self = num_heads
       ∧ MonotonicAttention.gqa_factor self = gqa_factor
       ∧ MonotonicAttention.soft_clamp self = soft_clamp
       ∧ MonotonicAttention.max_kv_cache_len self = max_kv_cache_len
       ∧ MonotonicAttention.clamp_value self = - ln (1 / clamp_prob - 1)).
Proof.
  split.
  - intros Hfail.
    unfold MonotonicAttention.__init__, py_mod, py_floordiv, py_sqrt, assert_.
    destruct (decide (num_heads = 0%Z)) as [Hn | Hn]; simpl; [by right |].
    case_bool_decide as Hd1; simpl; [| by left].
    apply (Z.mod_divide embed_dim num_heads Hn) in Hd1.
    destruct (decide (gqa_factor = 0%Z)) as [Hg | Hg]; simpl; [by right |].
    case_bool_decide as Hd2; simpl; [| by left].
    apply (Z.mod_divide num_heads gqa_factor Hg) in Hd2.
    case_bool_decide as Hlo; simpl; [| by left].
    case_bool_decide as Hhi; simpl; [| by left].
    tauto.
  - intros self E. by destruct (init_fields self E) as (_ & ?).
Qed.
End Config.

(** C6 as stated fails for a negative [embed_dim]: the three checks pass
    for [embed_dim = -4], [num_heads = 2], [gqa_factor = 1] and
    [clamp_prob = 0.98], and construction raises in [math.sqrt]. *)
Lemma init_negative_embed_dim_raises :
  (2 | -4)%Z ∧ (1 | 2)%Z ∧ 1 / 2 < 98 / 100 < 1
  ∧ MonotonicAttention.__init__ "many_keys_one_query" (-4) 2 true None None 1
      None (98 / 100) true
    = Raises ValueError.
Proof.
  assert (1 / 2 < 98 / 100 < 1) as Hp by lra.
  split; [by exists (-2)%Z |]. split; [by exists 2%Z |]. split; [done |].
  unfold MonotonicAttention.__init__. simpl.
  rewrite !bool_decide_eq_true_2 by tauto. simpl.
  by destruct (neg_prob_to_phi_valid _ Hp) as [-> _].
Qed.

Lemma tanh_bounds x : - 1 < tanh x < 1.
Proof.
  unfold tanh, sinh, cosh.
  pose proof (exp_pos x). pose proof (exp_pos (- x)).
  set (a := (exp x - exp (- x)) / 2). set (c := (exp x + exp (- x)) / 2).
  assert (0 < c) as Hc by (unfold c; lra).
  assert (- c < a < c) as [Hlo Hhi] by (unfold a, c; lra).
  assert (0 < / c) as Hq by by apply Rinv_0_lt_compat.
  assert (c * / c = 1) as Hcq by (apply Rinv_r; lra).
  unfold Rdiv. nra.
Qed.

Lemma cell_opt_tensor_map f t i j :
  cell_opt (tensor_map f t) i j = f <$> cell_opt t i j.
Proof.
  unfold cell_opt, tensor_map. simpl. rewrite list_lookup_fmap.
  destruct (rows t !! i) as [r |]; simpl; [| done].
  by rewrite list_lookup_fmap.
Qed.

Lemma tanh_alt x : tanh x = 1 - 2 / (exp (2 * x) + 1).
Proof.
  unfold tanh, sinh, cosh.
  replace (2 * x) with (x + x) by lra. rewrite exp_plus, exp_Ropp.
  pose proof (exp_pos x). field. split; nra.
Qed.

Lemma Znearest_bounds z N :
  - IZR N <= z <= IZR N → (- N <= Znearest z <= N)%Z.
Proof.
  intros [Hlo Hhi]. pose proof (Zfloor_bound z) as [Hf1 Hf2].
  assert (- N ≤ Zfloor z)%Z.
  { apply Zfloor_lub. by rewrite opp_IZR. }
  assert (Zfloor z ≤ N)%Z.
  { apply le_IZR. lra. }
  unfold Znearest.
  assert (1 / 2 <= z - IZR (Zfloor z) → (Zfloor z + 1 ≤ N)%Z) as Hup.
  { intros Hfr. assert (Zfloor z < N)%Z; [| lia]. apply lt_IZR. lra. }
  repeat case_decide; try destruct (Z.even _); try lia;
    (split; [lia | apply Hup; lra]).
Qed.

Lemma powerRZ_2_nonneg n : (0 ≤ n)%Z → ∃ N, (1 ≤ N)%Z ∧ powerRZ 2 n = IZR N.
Proof.
  intros Hn. exists (Zpower_nat 2 (Z.abs_nat n)). split.
  - generalize (Z.abs_nat n). intros k. induction k as [| k IH]; [done |].
    rewrite Zpower_nat_succ_r. lia.
  - by rewrite Zpower_nat_powerRZ_absolu.
Qed.

Lemma powerRZ_2_inv n : powerRZ 2 (- n) * powerRZ 2 n = 1.
Proof.
  rewrite <- powerRZ_add by lra. replace (- n + n)%Z with 0%Z by lia. done.
Qed.

Lemma ln_2_pos : 0 < ln 2.
Proof. pose proof ln_lt_2. lra. Qed.

Lemma mag_le_1 x : x ≠ 0 → Rabs x <= 1 → (mag x ≤ 1)%Z.
Proof.
  intros Hx Hle. unfold mag.
  assert (0 < Rabs x) by by apply Rabs_pos_lt.
  assert (ln (Rabs x) <= 0).
  { destruct Hle as [Hlt | ->]; [| rewrite ln_1; lra].
    rewrite <- ln_1. apply Rlt_le, ln_increasing; lra. }
  pose proof ln_2_pos.
  assert (ln (Rabs x) / ln 2 <= 0).
  { unfold Rdiv. assert (0 < / ln 2) by by apply Rinv_0_lt_compat. nra. }
  pose proof (Zfloor_bound (ln (Rabs x) / ln 2)) as [Hf _].
  assert (Zfloor (ln (Rabs x) / ln 2) ≤ 0)%Z; [| lia].
  apply le_IZR. lra.
Qed.

(** Rounding keeps a number of [[-1, 1]] in [[-1, 1]]. *)
Lemma round_nearest_le_1 fmt x :
  (1 ≤ prec fmt)%Z → (emin fmt ≤ 0)%Z →
  - 1 <= x <= 1 → - 1 <= round_nearest fmt x <= 1.
Proof.
  intros Hp He Hx. unfold round_nearest.
  case_decide as Hz; [lra |].
  assert (Rabs x <= 1) by (apply Rabs_le; lra).
  pose proof (mag_le_1 x Hz ltac:(done)).
  set (e := ulp_exp fmt x).
  assert (e ≤ 0)%Z by (unfold e, ulp_exp; lia).
  destruct (powerRZ_2_nonneg (- e) ltac:(lia)) as (N & HN & EN).
  pose proof (powerRZ_2_inv e) as Hinv. rewrite EN in *.
  assert (0 < powerRZ 2 e) by (apply powerRZ_lt; lra).
  assert (1 <= IZR N) by by apply IZR_le.
  destruct (Znearest_bounds (x * IZR N) N) as [Hn1 Hn2]; [nra |].
  apply IZR_le in Hn1, Hn2. rewrite opp_IZR in Hn1.
  split; nra.
Qed.

Lemma mag_near_1 y : 1 / 2 <= y < 1 → mag y = 0%Z.
Proof.
  intros [Hlo Hhi]. unfold mag. rewrite Rabs_pos_eq by lra.
  pose proof ln_2_pos.
  assert (ln y < 0) by (rewrite <- ln_1; apply ln_increasing; lra).
  assert (- ln 2 <= ln y).
  { rewrite <- ln_Rinv by lra. destruct Hlo as [Hlt | <-].
    - apply Rlt_le, ln_increasing; lra.
    - apply Req_le. f_equal. lra. }
  assert (Zfloor (ln y / ln 2) = (-1)%Z); [| lia].
  apply Zfloor_eq. assert (0 < / ln 2) by by apply Rinv_0_lt_compat.
  unfold Rdiv. split.
  - apply (Rmult_le_reg_r (ln 2)); [done |].
    rewrite Rmult_assoc, Rinv_l by lra. lra.
  - apply (Rmult_lt_reg_r (ln 2)); [done |].
    rewrite Rmult_assoc, Rinv_l by lra. lra.
Qed.

(** A number less than half a unit in the last place below 1 rounds to 1. *)
Lemma round_nearest_saturates fmt y :
  (1 ≤ prec fmt)%Z → (emin fmt ≤ - prec fmt)%Z →
  1 - / (2 * powerRZ 2 (prec fmt)) < y < 1 →
  round_nearest fmt y = 1.
Proof.
  intros Hp He [Hlo Hhi].
  destruct (powerRZ_2_nonneg (prec fmt - 1) ltac:(lia)) as (M & HM & EM).
  assert (powerRZ 2 (prec fmt) = 2 * IZR M) as EP.
  { replace (prec fmt) with (1 + (prec fmt - 1))%Z at 1 by lia.
    rewrite powerRZ_add, EM by lra.
    replace (powerRZ 2 1) with 2 by (simpl; lra). done. }
  rewrite EP in Hlo. apply IZR_le in HM.
  assert (/ (2 * (2 * IZR M)) <= / 4) by (apply Rinv_le_contravar; lra).
  assert (0 < / (2 * (2 * IZR M))) by (apply Rinv_0_lt_compat; lra).
  unfold round_nearest. case_decide; [lra |].
  unfold ulp_exp. rewrite mag_near_1 by lra.
  replace (Z.max (0 - prec fmt) (emin fmt)) with (- prec fmt)%Z by lia.
  rewrite Z.opp_involutive, powerRZ_neg', EP.
  assert (y * (2 * IZR M) < 2 * IZR M) by nra.
  assert ((1 - y) * (2 * (2 * IZR M)) < 1).
  { apply (Rmult_lt_reg_r (/ (2 * (2 * IZR M)))); [done |].
    rewrite Rmult_assoc, Rinv_r by lra. lra. }
  assert (Zfloor (y * (2 * IZR M)) = (2 * M - 1)%Z) as Hfl.
  { apply Zfloor_eq. rewrite minus_IZR, mult_IZR. split; lra. }
  unfold Znearest. rewrite Hfl, minus_IZR, mult_IZR.
  case_decide; [lra |]. case_decide; [| lra].
  replace (2 * M - 1 + 1)%Z with (2 * M)%Z by lia.
  rewrite mult_IZR. field. lra.
Qed.

Lemma tanh_40_near_1 : 1 - / 2 ^ 79 < tanh 40 < 1.
Proof.
  rewrite tanh_alt. replace (2 * 40) with (INR 80 * 1).
  - pose proof (exp_scale_lower 80 1) as H.
    assert (2 <= exp 1) as H1 by (pose proof (exp_ineq1_le 1); lra).
    specialize (H H1).
    assert (0 < 2 ^ 80) by (apply pow_lt; lra).
    assert (0 < / (exp (INR 80 * 1) + 1)) by (apply Rinv_0_lt_compat; lra).
    assert (/ (exp (INR 80 * 1) + 1) < / 2 ^ 80)
      by (apply Rinv_lt_contravar; [nra | lra]).
    replace (/ 2 ^ 79) with (2 * / 2 ^ 80)
      by (change (2 ^ 80) with (2 * 2 ^ 79); field; apply pow_nonzero; lra).
    unfold Rdiv. lra.
  - rewrite INR_IZR_INZ. replace (Z.of_nat 80) with 80%Z by reflexivity. lra.
Qed.

(** In every format of at most 78 bits of precision, so in [float32] and
    [float64], the rounded tangent of 40 is 1. *)
Lemma torch_tanh_saturates fmt :
  (1 <= prec fmt <= 78)%Z → (emin fmt ≤ - prec fmt)%Z →
  torch_tanh fmt 40 = 1.
Proof.
  intros Hp He. apply round_nearest_saturates; [lia | done |].
  pose proof tanh_40_near_1 as [Hlo Hhi]. split; [| done].
  assert (/ 2 ^ 79 <= / (2 * powerRZ 2 (prec fmt))); [| lra].
  destruct (powerRZ_2_nonneg (78 - prec fmt) ltac:(lia)) as (K & HK & EK).
  assert (2 ^ 79 = 2 * powerRZ 2 (prec fmt) * IZR K) as ->.
  { change (2 ^ 79) with (2 * 2 ^ 78). rewrite pow_powerRZ.
    replace (Z.of_nat 78) with (prec fmt + (78 - prec fmt))%Z by lia.
    rewrite powerRZ_add, EK by lra. ring. }
  assert (0 < powerRZ 2 (prec fmt)) by (apply powerRZ_lt; lra).
  apply IZR_le in HK.
  apply Rinv_le_contravar; nra.
Qed.

(** C5, as amended: in a layer that construction accepted with
    [clamp_prob], the clamp value is [c = -log (1/clamp_prob - 1)] and it is
    positive.  With [soft_clamp] false, [_clamp_attn] maps a cell below [-c]
    to [-c], a cell above [c] to [c], and leaves a cell of [[-c, c]] as it
    is; with [soft_clamp] true the cell becomes [tanh x * c], the tangent
    being the one of the tensor's floating-point format, and it lies in the
    closed interval from [-c] to [c]. *)
Theorem clamp_attn_range fmt mode embed_dim num_heads bias kdim vdim
    gqa_factor max_kv_cache_len clamp_prob soft_clamp self attn i j x :
  (1 ≤ prec fmt)%Z → (emin fmt ≤ 0)%Z →
  MonotonicAttention.__init__ mode embed_dim num_heads bias kdim vdim
    gqa_factor max_kv_cache_len clamp_prob soft_clamp = Returns self →
  cell_opt attn i j = Some x →
  ∃ c y,
    c = - ln (1 / clamp_prob - 1)
    ∧ MonotonicAttention.clamp_value self = c ∧ 0 < c
    ∧ cell_opt (MonotonicAttention._clamp_attn_rounded fmt self attn) i j
      = Some y
    ∧ (soft_clamp = false →
       (x < - c → y = - c) ∧ (c < x → y = c) ∧ (- c <= x <= c → y = x))
    ∧ (soft_clamp = true → y = torch_tanh fmt x * c ∧ - c <= y <= c).
Proof.
  intros Hprec Hemin Hinit Hx.
  destruct (init_fields _ _ _ _ _ _ _ _ _ _ _ Hinit)
    as (Hp & _ & _ & _ & _ & Hsoft & _ & Hc).
  destruct (neg_prob_to_phi_valid _ Hp) as [_ Hpos].
  exists (- ln (1 / clamp_prob - 1)).
  unfold MonotonicAttention._clamp_attn_rounded. rewrite Hsoft, Hc.
  set (c := - ln (1 / clamp_prob - 1)) in *.
  destruct soft_clamp; simpl; rewrite cell_opt_tensor_map, Hx; simpl;
    eexists; (split; [done |]); (split; [done |]); (split; [done |]);
    (split; [done |]).
  - split; [done |]. intros _. split; [done |].
    pose proof (tanh_bounds x) as Ht.
    pose proof (round_nearest_le_1 fmt (tanh x) Hprec Hemin ltac:(lra)) as Hr.
    unfold torch_tanh. nra.
  - split; [| done]. intros _. unfold MonotonicAttention.clamp, Rmin, Rmax.
    repeat split; intros; repeat destruct (Rle_dec _ _); lra.
Qed.

Lemma clamp_attn_range_witness :
  ∃ c y,
    c = - ln (1 / (98 / 100) - 1)
    ∧ 0 < c
    ∧ cell_opt
        (MonotonicAttention._clamp_attn_rounded float32
           (MonotonicAttention.Layer "many_keys_one_query" 2 1 2 2 None
              (- ln (1 / (98 / 100) - 1)) true (sqrt 2) 4 4 4 4 true)
           (Tensor 1 [[5]])) 0 0
      = Some y
    ∧ - c <= y <= c.
Proof.
  assert (1 / 2 < 98 / 100 < 1) as Hp by lra.
  destruct (clamp_attn_range float32 "many_keys_one_query" 4 2 true None None
              1 None (98 / 100) true
              (MonotonicAttention.Layer "many_keys_one_query" 2 1 2 2 None
                 (- ln (1 / (98 / 100) - 1)) true (sqrt 2) 4 4 4 4 true)
              (Tensor 1 [[5]]) 0 0 5)
    as (c & y & Ec & _ & Hc & Hy & _ & Hs).
  - done.
  - done.
  - unfold MonotonicAttention.__init__. simpl.
    rewrite !bool_decide_eq_true_2 by tauto. simpl.
    by destruct (neg_prob_to_phi_valid _ Hp) as [-> _].
  - reflexivity.
  - exists c, y. destruct (Hs eq_refl) as [_ Hr]. done.
Defined.

(** C5 as stated fails in floating point: the soft clamp does not stay
    strictly inside [(-c, c)].  In [float64] the tangent of 40 rounds to 1,
    and a layer that construction accepts with [clamp_prob = 0.98] maps the
    score 40 to the boundary [c] itself. *)
Lemma soft_clamp_reaches_boundary :
  MonotonicAttention.__init__ "many_keys_one_query" 4 2 true None None 1 None
    (98 / 100) true
  = Returns (MonotonicAttention.Layer "many_keys_one_query" 2 1 2 2 None
               (- ln (1 / (98 / 100) - 1)) true (sqrt 2) 4 4 4 4 true)
  ∧ cell_opt
      (MonotonicAttention._clamp_attn_rounded float64
         (MonotonicAttention.Layer "many_keys_one_query" 2 1 2 2 None
            (- ln (1 / (98 / 100) - 1)) true (sqrt 2) 4 4 4 4 true)
         (Tensor 1 [[40]])) 0 0
    = Some (- ln (1 / (98 / 100) - 1)).
Proof.
  assert (1 / 2 < 98 / 100 < 1) as Hp by lra.
  split.
  - unfold MonotonicAttention.__init__. simpl.
    rewrite !bool_decide_eq_true_2 by tauto. simpl.
    by destruct (neg_prob_to_phi_valid _ Hp) as [-> _].
  - unfold MonotonicAttention._clamp_attn_rounded, cell_opt. simpl.
    rewrite torch_tanh_saturates by (simpl; lia). f_equal. lra.
Qed.

(** * Further properties: the scalar helpers *)

Lemma prob_to_phi_arg p : 0 < p < 1 → p ≠ 0 ∧ 0 < 1 / p - 1.
Proof.
  intros [H0 H1].
  assert (0 < / p) by by apply Rinv_0_lt_compat.
  assert (p * / p = 1) by (apply Rinv_r; lra).
  split; [lra | unfold Rdiv; nra].
Qed.

Lemma prob_to_phi_arg_inv p : p ≠ 0 → 0 < 1 / p - 1 → 0 < p < 1.
Proof.
  intros Hp H.
  assert (p * / p = 1) as E by by apply Rinv_r.
  unfold Rdiv in H. rewrite Rmult_1_l in H.
  destruct (Rlt_dec 0 p) as [Hpos | Hneg].
  - split; [done |]. nra.
  - assert (p < 0) as Hlt by lra.
    pose proof (Rinv_lt_0_compat p Hlt). lra.
Qed.

(** X1: [neg_prob_to_phi] and [pos_prob_to_phi] return exactly on the
    probabilities strictly between 0 and 1: they raise [ZeroDivisionError]
    on 0 and [ValueError] on every other value. *)
Theorem prob_to_phi_domain p :
  ((∃ c, neg_prob_to_phi p = Returns c) ↔ 0 < p < 1)
  ∧ ((∃ c, pos_prob_to_phi p = Returns c) ↔ 0 < p < 1)
  ∧ (neg_prob_to_phi p = Raises ZeroDivisionError ↔ p = 0)
  ∧ (pos_prob_to_phi p = Raises ZeroDivisionError ↔ p = 0)
  ∧ (neg_prob_to_phi p = Raises ValueError ↔ p ≠ 0 ∧ ¬ 0 < p < 1)
  ∧ (pos_prob_to_phi p = Raises ValueError ↔ p ≠ 0 ∧ ¬ 0 < p < 1).
Proof.
  unfold neg_prob_to_phi, pos_prob_to_phi.
  destruct (decide (p = 0)) as [-> | Hp].
  { split_and!; split; intros Hx; try done; try lra;
      try (by destruct Hx as [? ?]); tauto. }
  destruct (decide (0 < 1 / p - 1)) as [H | H].
  - pose proof (prob_to_phi_arg_inv p Hp H).
    split_and!; split; intros Hx; try done; try lra; eauto;
      try (by destruct Hx as [? ?]); tauto.
  - assert (¬ 0 < p < 1) by (intros Hr; by destruct (prob_to_phi_arg p Hr)).
    split_and!; split; intros Hx; try done; try lra;
      try (by destruct Hx as [? ?]); tauto.
Qed.

(** X2: for a probability [p] strictly between 0 and 1,
    [neg_prob_to_phi p] is the logit whose positive transition probability
    is [p] and whose negative one is [1 - p]; [pos_prob_to_phi p] is the
    logit whose negative transition probability is [p] and whose positive
    one is [1 - p]. *)
Theorem prob_to_phi_round_trip p :
  0 < p < 1 →
  ∃ c c',
    neg_prob_to_phi p = Returns c
    ∧ phi_to_pos_prob c = p ∧ phi_to_neg_prob c = 1 - p
    ∧ pos_prob_to_phi p = Returns c'
    ∧ phi_to_neg_prob c' = p ∧ phi_to_pos_prob c' = 1 - p
    ∧ c' = - c.
Proof.
  intros Hp. destruct (prob_to_phi_arg p Hp) as [Hp0 Harg].
  exists (- ln (1 / p - 1)), (ln (1 / p - 1)).
  unfold neg_prob_to_phi, pos_prob_to_phi, phi_to_pos_prob, phi_to_neg_prob.
  destruct (decide (p = 0)); [done |].
  destruct (decide (0 < 1 / p - 1)); [| done].
  rewrite Ropp_involutive, exp_Ropp, exp_ln by done.
  repeat split; try done; try (field; split; lra).
Qed.

Lemma prob_to_phi_round_trip_witness :
  ∃ c, neg_prob_to_phi (98 / 100) = Returns c
       ∧ phi_to_pos_prob c = 98 / 100.
Proof.
  destruct (prob_to_phi_round_trip (98 / 100)) as (c & c' & H1 & H2 & _).
  - lra.
  - by exists c.
Defined.

(** X5: [_d_pos_log_prob] and [_d_neg_log_prob] are the derivatives of
    [_pos_log_prob] and [_neg_log_prob] at every point, and they are the
    negative transition probability and minus the positive one. *)
Theorem log_prob_derivatives x :
  derivable_pt_lim _pos_log_prob x (_d_pos_log_prob x)
  ∧ derivable_pt_lim _neg_log_prob x (_d_neg_log_prob x)
  ∧ _d_pos_log_prob x = phi_to_neg_prob x
  ∧ _d_neg_log_prob x = - phi_to_pos_prob x.
Proof.
  pose proof (exp_pos x). pose proof (exp_pos (- x)).
  split; [apply d_pos_log_prob_correct |].
  split; [apply d_neg_log_prob_correct |].
  unfold _d_pos_log_prob, _d_neg_log_prob, phi_to_neg_prob, phi_to_pos_prob.
  split; field; lra.
Qed.

Lemma logaddexp_gt_l a b : a < _logaddexp a b.
Proof.
  apply exp_lt_inv. rewrite exp_logaddexp. pose proof (exp_pos b). lra.
Qed.

Lemma logaddexp_gt_r a b : b < _logaddexp a b.
Proof.
  apply exp_lt_inv. rewrite exp_logaddexp. pose proof (exp_pos a). lra.
Qed.

Lemma exp_le_compat a b : a <= b → exp a <= exp b.
Proof. intros [H | ->]; [apply Rlt_le, exp_increasing, H | lra]. Qed.

Lemma logaddexp_le a b m : a <= m → b <= m → _logaddexp a b <= m + ln 2.
Proof.
  intros Ha Hb. pose proof (exp_pos m) as Hm.
  assert (exp (_logaddexp a b) <= exp (m + ln 2)) as Hle.
  { rewrite exp_logaddexp, exp_plus, exp_ln by lra.
    pose proof (exp_le_compat _ _ Ha). pose proof (exp_le_compat _ _ Hb). lra. }
  destruct (Rle_lt_dec (_logaddexp a b) (m + ln 2)) as [| Hgt]; [done |].
  apply exp_increasing in Hgt. lra.
Qed.

(** X6: [_logaddexp] is symmetric, is at least the larger of its
    arguments and at most [ln 2] above it, and commutes with adding a
    constant to both arguments. *)
Theorem logaddexp_bounds a b c :
  _logaddexp a b = _logaddexp b a
  ∧ Rmax a b <= _logaddexp a b
  ∧ _logaddexp a b <= Rmax a b + ln 2
  ∧ _logaddexp (a + c) (b + c) = _logaddexp a b + c.
Proof.
  split; [unfold _logaddexp; f_equal; lra |].
  split; [| split].
  - unfold Rmax. destruct (Rle_dec a b);
      [apply Rlt_le, logaddexp_gt_r | apply Rlt_le, logaddexp_gt_l].
  - apply logaddexp_le; [apply Rmax_l | apply Rmax_r].
  - apply exp_inv. rewrite exp_plus, !exp_logaddexp, !exp_plus. ring.
Qed.

(** X7: the two log-space values of a logit are log-probabilities bounded
    by the log-odds: [_pos_log_prob x] is at most [0] and at most [x],
    [_neg_log_prob x] is at most [0] and at most [- x], and the two exchange
    under negation of the logit. *)
Theorem log_prob_log_odds x :
  _pos_log_prob x <= 0
  ∧ _pos_log_prob x <= x
  ∧ _neg_log_prob x <= 0
  ∧ _neg_log_prob x <= - x
  ∧ _pos_log_prob (- x) = _neg_log_prob x.
Proof.
  pose proof (exp_pos x) as Px. pose proof (exp_pos (- x)) as Px'.
  assert (_pos_log_prob x < 0) as Hp.
  { apply exp_lt_inv. rewrite exp_0.
    by destruct (exp_pos_log_prob_bounds x). }
  assert (_neg_log_prob x < 0) as Hn.
  { apply exp_lt_inv. rewrite exp_0.
    by destruct (exp_neg_log_prob_bounds x). }
  assert (_pos_log_prob x - _neg_log_prob x = x) as Hd.
  { apply exp_inv. unfold Rminus.
    rewrite exp_plus, exp_Ropp, exp_pos_log_prob, exp_neg_log_prob, exp_Ropp.
    field. split; lra. }
  split_and!; try lra.
  unfold _pos_log_prob, _neg_log_prob. by rewrite Ropp_involutive.
Qed.

(** * Further properties: the forward pass *)

Lemma forward_phi_cell_tabulate Sn Tn f i k :
  (1 ≤ Tn)%nat → (i < Sn)%nat → (k < Tn)%nat →
  forward_phi_cell (tabulate Sn Tn f) i k = phi_rec (padded f) i (S k).
Proof.
  intros. unfold forward_phi_cell.
  rewrite forward_outputs_tabulate by lia. by rewrite cell_tabulate.
Qed.

Lemma forward_phi_cell_eq L Sn Tn i k :
  has_shape L Sn Tn → (1 ≤ Tn)%nat → (i < Sn)%nat → (k < Tn)%nat →
  forward_phi_cell L i k = phi_cell L i k.
Proof.
  intros HL HT Hi Hk. rewrite (tensor_is_tabulate _ _ _ HL) at 1.
  by rewrite forward_phi_cell_tabulate.
Qed.

Lemma forward_prob_cell_eq L Sn Tn i k :
  has_shape L Sn Tn → (1 ≤ Tn)%nat → (i < Sn)%nat → (k < Tn)%nat →
  forward_prob_cell L i k = prob_cell L i k.
Proof.
  intros HL HT Hi Hk. rewrite (tensor_is_tabulate _ _ _ HL) at 1.
  by rewrite forward_prob_cell_tabulate.
Qed.

(** X8: on well-shaped logits [forward_pass_cpu_] returns exactly when
    neither axis is empty, and raises [IndexError] when one is. *)
Theorem forward_pass_cpu_returns_iff s logits L Sn Tn :
  heap s !! logits = Some L → has_shape L Sn Tn →
  ((∃ r s', forward_pass_cpu_ logits s = (Returns r, s'))
   ↔ (1 ≤ Sn)%nat ∧ (1 ≤ Tn)%nat)
  ∧ (Sn = O ∨ Tn = O →
     fst (forward_pass_cpu_ logits s) = Raises IndexError).
Proof.
  intros Hl HL. split; [split |].
  - intros (r & s' & E). by eapply forward_pass_cpu_returns.
  - intros [HS HT]. eexists _, _. by apply (forward_pass_cpu_run _ _ L Sn Tn).
  - intros Hz.
    destruct (forward_pass_cpu_raises _ _ _ _ _ Hl HL Hz) as [s' E].
    by rewrite E.
Qed.

Lemma forward_pass_cpu_returns_iff_witness :
  fst (forward_pass_cpu_ 0 (initial_state [Tensor 3 []])) = Raises IndexError.
Proof.
  apply (forward_pass_cpu_returns_iff (initial_state [Tensor 3 []]) 0
           (Tensor 3 []) 0 3).
  - reflexivity.
  - repeat split. constructor.
  - by left.
Defined.

(** X9: the tensors that [forward_pass_cpu_] returns are a function of the
    logits alone: in every heap, whatever the uninitialised memory of
    [torch.empty_like] holds, they are the pair [forward_outputs L], and both
    have the shape of the logits. *)
Theorem forward_pass_cpu_output s logits L Sn Tn phis probs s' :
  heap s !! logits = Some L → has_shape L Sn Tn →
  forward_pass_cpu_ logits s = (Returns (phis, probs), s') →
  ∃ phi prob,
    heap s' !! phis = Some phi ∧ heap s' !! probs = Some prob
    ∧ forward_outputs L = Some (phi, prob)
    ∧ has_shape phi Sn Tn ∧ has_shape prob Sn Tn.
Proof.
  intros Hl HL Hrun.
  destruct (forward_pass_cpu_returns _ _ _ _ _ _ _ Hl HL Hrun) as [HS HT].
  rewrite (forward_pass_cpu_run _ _ _ _ _ Hl HL HS HT) in Hrun.
  injection Hrun as <- <- <-.
  exists (tabulate Sn Tn (phi_cell L)), (tabulate Sn Tn (prob_cell L)).
  rewrite heap_set_heap. split_and!; try apply has_shape_tabulate.
  - rewrite lookup_app_r by lia.
    by replace (length (heap s) + 1 - length (heap s))%nat with 1%nat by lia.
  - rewrite lookup_app_r by lia.
    by replace (length (heap s) + 2 - length (heap s))%nat with 2%nat by lia.
  - rewrite (tensor_is_tabulate _ _ _ HL) at 1.
    by rewrite forward_outputs_tabulate.
Qed.

Lemma forward_pass_cpu_output_witness :
  ∃ phi prob,
    forward_outputs (Tensor 1 [[1]; [2]]) = Some (phi, prob)
    ∧ has_shape phi 2 1 ∧ has_shape prob 2 1.
Proof.
  destruct (forward_pass_cpu_output
              (State [Tensor 1 [[1]; [2]]] [] (λ _ _, 7)) 0
              (Tensor 1 [[1]; [2]]) 2 1 2 3
              (snd (forward_pass_cpu_ 0
                      (State [Tensor 1 [[1]; [2]]] [] (λ _ _, 7)))))
    as (phi & prob & _ & _ & H & H1 & H2).
  - reflexivity.
  - repeat split. repeat constructor.
  - reflexivity.
  - by exists phi, prob.
Defined.

Lemma pos_log_prob_neg x : _pos_log_prob x < 0.
Proof.
  apply exp_lt_inv. rewrite exp_0. apply exp_pos_log_prob_bounds.
Qed.

Lemma neg_log_prob_neg x : _neg_log_prob x < 0.
Proof.
  apply exp_lt_inv. rewrite exp_0. apply exp_neg_log_prob_bounds.
Qed.

Lemma phi_rec_ext lp lp' i j :
  (∀ i' j', (i' < i)%nat → (j' ≤ j)%nat → lp i' j' = lp' i' j') →
  phi_rec lp i j = phi_rec lp' i j.
Proof.
  revert j. induction i as [| i IH]; intros j H; [done |].
  destruct j as [| j]; [done |]. simpl.
  rewrite (IH (S j)), (IH j), (H i (S j)), (H i j);
    try lia; try done; intros; apply H; lia.
Qed.

(** X10: the forward pass is causal in both axes.  Replacing the logit of
    the cell [(p, q)] leaves [phi[i, k]] as it was for every source row
    [i ≤ p] and every target column [k < q], and leaves [prob[i, k]] as it
    was in the same cells other than [(p, q)] itself. *)
Theorem forward_pass_cpu_causal L Sn Tn p q t i k :
  has_shape L Sn Tn → (1 ≤ Tn)%nat →
  (p < Sn)%nat → (i < Sn)%nat → (k < Tn)%nat →
  (i ≤ p)%nat ∨ (k < q)%nat →
  forward_phi_cell (set_logit L p q t) i k = forward_phi_cell L i k
  ∧ ((p, q) ≠ (i, k) →
     forward_prob_cell (set_logit L p q t) i k = forward_prob_cell L i k).
Proof.
  intros HL HT Hp Hi Hk Hpq.
  rewrite (tensor_is_tabulate _ _ _ HL), set_logit_tabulate by done.
  rewrite !forward_phi_cell_tabulate, !forward_prob_cell_tabulate by done.
  assert (phi_rec
            (padded (λ i0 k0, if decide (i0 = p ∧ k0 = q) then t
                              else cell L i0 k0)) i (S k)
          = phi_rec (padded (cell L)) i (S k)) as ->.
  { apply phi_rec_ext. intros i' [| j'] Hi' Hj'; [done |]. simpl.
    case_decide; [lia | done]. }
  split; [done |]. intros Hne.
  case_decide as Heq; [| done]. destruct Heq as [-> ->]. done.
Qed.

Lemma forward_pass_cpu_causal_witness :
  forward_phi_cell (set_logit (Tensor 2 [[1; 2]; [3; 4]]) 1 0 5) 1 1
  = forward_phi_cell (Tensor 2 [[1; 2]; [3; 4]]) 1 1.
Proof.
  apply (forward_pass_cpu_causal (Tensor 2 [[1; 2]; [3; 4]]) 2 2 1 0 5 1 1).
  - repeat split. repeat constructor.
  - lia.
  - lia.
  - lia.
  - lia.
  - left. lia.
Defined.

Lemma phi_rec_unreachable lp i j :
  (i + 1 < j)%nat → phi_rec lp i j <= MIN_LOG_PROB + INR i * ln 2.
Proof.
  revert j. induction i as [| i IH]; intros j Hj.
  - simpl. case_decide; [lia | lra].
  - destruct j as [| j]; [lia |].
    change (phi_rec lp (S i) (S j))
      with (_logaddexp (phi_rec lp i (S j) + _pos_log_prob (lp i (S j)))
                       (phi_rec lp i j + _neg_log_prob (lp i j))).
    rewrite S_INR.
    replace (MIN_LOG_PROB + (INR i + 1) * ln 2)
      with (MIN_LOG_PROB + INR i * ln 2 + ln 2) by ring.
    pose proof (IH (S j) ltac:(lia)). pose proof (IH j ltac:(lia)).
    pose proof (pos_log_prob_neg (lp i (S j))).
    pose proof (neg_log_prob_neg (lp i j)).
    apply logaddexp_le; lra.
Qed.

(** X11: the cells above the diagonal, which no monotonic path from the
    start cell reaches, stay at the sentinel: for [i < k] both [phi[i, k]]
    and [prob[i, k]] are at most [MIN_LOG_PROB + i * ln 2], whatever the
    logits are. *)
Theorem forward_pass_cpu_unreachable L Sn Tn i k :
  has_shape L Sn Tn → (i < Sn)%nat → (k < Tn)%nat → (i < k)%nat →
  forward_phi_cell L i k <= MIN_LOG_PROB + INR i * ln 2
  ∧ forward_prob_cell L i k < MIN_LOG_PROB + INR i * ln 2.
Proof.
  intros HL Hi Hk Hik.
  rewrite (tensor_is_tabulate _ _ _ HL).
  rewrite forward_phi_cell_tabulate, forward_prob_cell_tabulate by lia.
  pose proof (phi_rec_unreachable (padded (cell L)) i (S k) ltac:(lia)).
  pose proof (neg_log_prob_neg (cell L i k)). lra.
Qed.

Lemma forward_pass_cpu_unreachable_witness :
  forward_prob_cell (Tensor 2 [[1; 2]; [3; 4]]) 0 1
  < MIN_LOG_PROB + INR 0 * ln 2.
Proof.
  apply (forward_pass_cpu_unreachable (Tensor 2 [[1; 2]; [3; 4]]) 2 2 0 1).
  - repeat split. repeat constructor.
  - lia.
  - lia.
  - lia.
Defined.

Lemma phi_rec_first_col l i :
  Rsum i (λ r, _pos_log_prob (l r O)) <= phi_rec (padded l) i 1
  ∧ exp (phi_rec (padded l) i 1)
    <= exp (Rsum i (λ r, _pos_log_prob (l r O)))
       + INR i * (exp MIN_LOG_PROB / 2).
Proof.
  induction i as [| i [IHlo IHhi]].
  - simpl. rewrite exp_0. lra.
  - change (phi_rec (padded l) (S i) 1)
      with (_logaddexp (phi_rec (padded l) i 1 + _pos_log_prob (l i O))
                       (phi_rec (padded l) i 0 + _neg_log_prob 0)).
    split.
    + simpl.
      pose proof (logaddexp_gt_l
                    (phi_rec (padded l) i 1 + _pos_log_prob (l i O))
                    (phi_rec (padded l) i 0 + _neg_log_prob 0)). lra.
    + rewrite exp_logaddexp, !exp_plus, phi_rec_col0.
      rewrite (exp_neg_log_prob 0), exp_0, S_INR. simpl Rsum.
      rewrite exp_plus.
      pose proof (exp_pos_log_prob_bounds (l i O)).
      pose proof (exp_pos (Rsum i (λ r, _pos_log_prob (l r O)))).
      pose proof (exp_pos MIN_LOG_PROB). pose proof (pos_INR i).
      set (a := exp (phi_rec (padded l) i 1)) in *.
      set (b := exp (Rsum i (λ r, _pos_log_prob (l r O)))) in *.
      set (c := exp (_pos_log_prob (l i O))) in *.
      set (d := exp MIN_LOG_PROB / 2) in *.
      replace (exp MIN_LOG_PROB * / (1 + 1)) with d by (unfold d; lra).
      assert (0 <= INR i * d) by (apply Rmult_le_pos; unfold d; lra).
      assert (a * c <= (b + INR i * d) * c)
        by (apply Rmult_le_compat_r; lra).
      assert (INR i * d * c <= INR i * d * 1)
        by (apply Rmult_le_compat_l; lra).
      lra.
Qed.

(** X12: the first target column carries the probability of never having
    advanced.  [phi[i, 0]] is at least the sum of the stay log-probabilities
    of the rows above [i], and its exponential exceeds their product by at
    most [i * exp(MIN_LOG_PROB) / 2], the mass that leaks in from the
    padding column. *)
Theorem forward_pass_cpu_first_column L Sn Tn i :
  has_shape L Sn Tn → (1 ≤ Tn)%nat → (i < Sn)%nat →
  Rsum i (λ r, _pos_log_prob (cell L r O)) <= forward_phi_cell L i O
  ∧ exp (forward_phi_cell L i O)
    <= exp (Rsum i (λ r, _pos_log_prob (cell L r O)))
       + INR i * (exp MIN_LOG_PROB / 2).
Proof.
  intros HL HT Hi.
  rewrite (forward_phi_cell_eq _ _ _ _ _ HL) by lia.
  apply phi_rec_first_col.
Qed.

Lemma forward_pass_cpu_first_column_witness :
  Rsum 1 (λ r, _pos_log_prob (cell (Tensor 1 [[1]; [2]]) r O))
  <= forward_phi_cell (Tensor 1 [[1]; [2]]) 1 O.
Proof.
  apply (forward_pass_cpu_first_column (Tensor 1 [[1]; [2]]) 2 1 1).
  - repeat split. repeat constructor.
  - lia.
  - lia.
Defined.

Lemma Rsum_const n c : Rsum n (λ _, c) = INR n * c.
Proof.
  induction n as [| n IH]; [simpl; lra |].
  rewrite S_INR. simpl. rewrite IH. ring.
Qed.

(** X13: every row of the table is a sub-distribution over the target
    positions, up to the mass of the sentinel: the exponentials of
    [phi[i, :]] sum to at most [1 + (tgt_len + i - 1) * exp(MIN_LOG_PROB)]. *)
Theorem forward_phi_row_mass L Sn Tn i :
  has_shape L Sn Tn → (1 ≤ Tn)%nat → (i < Sn)%nat →
  Rsum Tn (λ k, exp (forward_phi_cell L i k))
  <= 1 + (INR Tn + INR i - 1) * exp MIN_LOG_PROB.
Proof.
  intros HL HT Hi.
  rewrite (Rsum_ext _ _ (λ k, exp (phi_rec (padded (cell L)) i (S k)))).
  - pose proof (mass_bound (padded (cell L)) Tn i HT) as Hm.
    rewrite Rsum_shift, phi_rec_col0 in Hm. lra.
  - intros k Hk. by rewrite (forward_phi_cell_eq _ _ _ _ _ HL).
Qed.

Lemma forward_phi_row_mass_witness :
  Rsum 2 (λ k, exp (forward_phi_cell (Tensor 2 [[1; 2]; [3; 4]]) 1 k))
  <= 1 + (INR 2 + INR 1 - 1) * exp MIN_LOG_PROB.
Proof.
  apply (forward_phi_row_mass (Tensor 2 [[1; 2]; [3; 4]]) 2 2 1).
  - repeat split. repeat constructor.
  - lia.
  - lia.
Defined.

Lemma column_mass_step lp n j :
  Rsum n (λ i, exp (phi_rec lp i (S j) + _neg_log_prob (lp i (S j))))
  + exp (phi_rec lp n (S j))
  = Rsum n (λ i, exp (phi_rec lp i j + _neg_log_prob (lp i j)))
    + exp (phi_rec lp O (S j)).
Proof.
  induction n as [| n IH]; [simpl Rsum; lra |].
  change (phi_rec lp (S n) (S j))
    with (_logaddexp (phi_rec lp n (S j) + _pos_log_prob (lp n (S j)))
                     (phi_rec lp n j + _neg_log_prob (lp n j))).
  rewrite exp_logaddexp. simpl Rsum. rewrite !exp_plus.
  pose proof (exp_pos_neg_log_prob (lp n (S j))) as Hpn.
  replace (exp (_pos_log_prob (lp n (S j))))
    with (1 - exp (_neg_log_prob (lp n (S j)))) by lra.
  lra.
Qed.

Lemma column_mass_bound l n j :
  Rsum n (λ i, exp (phi_rec (padded l) i (S j)
                    + _neg_log_prob (padded l i (S j))))
  <= 1 + (INR j + INR n / 2) * exp MIN_LOG_PROB.
Proof.
  induction j as [| j IH].
  - pose proof (column_mass_step (padded l) n O) as Hs.
    rewrite (Rsum_ext n (λ i, exp (phi_rec (padded l) i 0
                                   + _neg_log_prob (padded l i 0)))
               (λ _, exp MIN_LOG_PROB / 2)) in Hs.
    + rewrite Rsum_const in Hs. simpl phi_rec in Hs. rewrite exp_0 in Hs.
      pose proof (exp_pos (phi_rec (padded l) n 1)). simpl INR. lra.
    + intros i _. rewrite phi_rec_col0, exp_plus. simpl padded.
      rewrite (exp_neg_log_prob 0), exp_0. lra.
  - pose proof (column_mass_step (padded l) n (S j)) as Hs.
    simpl phi_rec in Hs.
    pose proof (exp_pos (phi_rec (padded l) n (S (S j)))).
    rewrite S_INR. lra.
Qed.

(** X14: every target position is left at most once.  For each target
    column [k] the exponentials of the marginals [prob[:, k]] over all
    source rows sum to at most
    [1 + (k + src_len / 2) * exp(MIN_LOG_PROB)]. *)
Theorem forward_prob_column_mass L Sn Tn k :
  has_shape L Sn Tn → (k < Tn)%nat →
  Rsum Sn (λ i, exp (forward_prob_cell L i k))
  <= 1 + (INR k + INR Sn / 2) * exp MIN_LOG_PROB.
Proof.
  intros HL Hk.
  rewrite (Rsum_ext _ _
             (λ i, exp (phi_rec (padded (cell L)) i (S k)
                        + _neg_log_prob (padded (cell L) i (S k))))).
  - apply column_mass_bound.
  - intros i Hi. rewrite (forward_prob_cell_eq _ _ _ _ _ HL) by lia. done.
Qed.

Lemma forward_prob_column_mass_witness :
  Rsum 2 (λ i, exp (forward_prob_cell (Tensor 2 [[1; 2]; [3; 4]]) i 1))
  <= 1 + (INR 1 + INR 2 / 2) * exp MIN_LOG_PROB.
Proof.
  apply (forward_prob_column_mass (Tensor 2 [[1; 2]; [3; 4]]) 2 2 1).
  - repeat split. repeat constructor.
  - lia.
Defined.

(** * Further properties: the backward pass *)

Lemma backward_pass_cpu_raises logits phis grad_phis s L G Tn :
  heap s !! logits = Some L → has_shape L 0 Tn →
  heap s !! grad_phis = Some G → has_shape G 0 Tn →
  ∃ s', backward_pass_cpu_ logits phis grad_phis s = (Raises IndexError, s').
Proof.
  intros Hl HL Hg HG.
  rewrite (tensor_is_tabulate _ _ _ HL) in Hl.
  rewrite (tensor_is_tabulate _ _ _ HG) in Hg.
  unfold backward_pass_cpu_.
  rewrite (bind_run _ _ _ _ _ (load_run _ _ _ Hl)).
  rewrite size_src_tabulate.
  rewrite (bind_run _ _ _ _ _ (load_run _ _ _ Hg)).
  rewrite (bind_run _ _ _ _ _ (empty_like_run _ _ _ _)).
  eexists. apply bind_raises. unfold fill_row.
  erewrite bind_run; [| apply load_run, lookup_alloc_new].
  simpl. reflexivity.
Qed.

Lemma backward_output_tabulate Sn Tn l ph g :
  (1 ≤ Sn)%nat →
  backward_output (tabulate Sn Tn l) (tabulate Sn Tn ph) (tabulate Sn Tn g)
  = Some (tabulate Sn Tn (grad_logits_cell Sn Tn l ph g)).
Proof.
  intros HS. unfold backward_output.
  by rewrite (backward_pass_cpu_run 0 1 2 _ Sn Tn l ph g).
Qed.

Lemma backward_grad_cell_eq L phi g Sn Tn i k :
  has_shape L Sn Tn → has_shape phi Sn Tn → has_shape g Sn Tn →
  (i < Sn)%nat → (k < Tn)%nat →
  backward_grad_cell L phi g i k
  = grad_logits_cell Sn Tn (cell L) (cell phi) (cell g) i k.
Proof.
  intros HL HP HG Hi Hk. unfold backward_grad_cell.
  rewrite (tensor_is_tabulate _ _ _ HL) at 1.
  rewrite (tensor_is_tabulate _ _ _ HP) at 1.
  rewrite (tensor_is_tabulate _ _ _ HG) at 1.
  rewrite backward_output_tabulate by lia. by rewrite cell_tabulate.
Qed.

(** X15: on tensors of one shape [backward_pass_cpu_] returns exactly when
    the source axis is not empty, also for an empty target axis, on which
    the forward pass raises; for an empty source axis it raises
    [IndexError].  What it returns is a tensor object that did not exist at
    the call and has the shape of the logits. *)
Theorem backward_pass_cpu_returns_iff s logits phis grad_phis L P G Sn Tn :
  heap s !! logits = Some L → has_shape L Sn Tn →
  heap s !! phis = Some P → has_shape P Sn Tn →
  heap s !! grad_phis = Some G → has_shape G Sn Tn →
  logits ≠ grad_phis → phis ≠ grad_phis →
  ((∃ out s', backward_pass_cpu_ logits phis grad_phis s = (Returns out, s'))
   ↔ (1 ≤ Sn)%nat)
  ∧ (Sn = O →
     fst (backward_pass_cpu_ logits phis grad_phis s) = Raises IndexError)
  ∧ (∀ out s',
       backward_pass_cpu_ logits phis grad_phis s = (Returns out, s') →
       (length (heap s) ≤ out)%nat
       ∧ ∃ grad, heap s' !! out = Some grad ∧ has_shape grad Sn Tn).
Proof.
  intros Hl HL Hp HP Hg HG Hne1 Hne2.
  assert (Sn = O →
          ∃ s', backward_pass_cpu_ logits phis grad_phis s
                = (Raises IndexError, s')) as Hraise.
  { intros ->. by eapply backward_pass_cpu_raises. }
  assert ((1 ≤ Sn)%nat →
          backward_pass_cpu_ logits phis grad_phis s
          = (Returns (length (heap s) + 1)%nat,
             set_heap
               (<[grad_phis := tabulate Sn Tn
                    (grad_phi_cell Sn Tn (cell L) (cell P) (cell G))]> (heap s)
                ++ [tabulate Sn Tn
                      (loop_grad_cell Sn Tn (cell L) (cell P) (cell G));
                    tabulate Sn Tn
                      (grad_logits_cell Sn Tn (cell L) (cell P) (cell G))])
               s)) as Hrun.
  { intros HS. apply backward_pass_cpu_run; try done.
    - by rewrite <- (tensor_is_tabulate _ _ _ HL).
    - by rewrite <- (tensor_is_tabulate _ _ _ HP).
    - by rewrite <- (tensor_is_tabulate _ _ _ HG). }
  assert (∀ out s',
            backward_pass_cpu_ logits phis grad_phis s = (Returns out, s') →
            (1 ≤ Sn)%nat) as Hret.
  { intros out s' E. destruct (decide (Sn = O)) as [HS | HS]; [| lia].
    destruct (Hraise HS) as [s'' E']. congruence. }
  split_and!.
  - split; [intros (out & s' & E); by eapply Hret |].
    intros HS. eexists _, _. by apply Hrun.
  - intros HS. destruct (Hraise HS) as [s' E]. by rewrite E.
  - intros out s' E. pose proof (Hret _ _ E) as HS.
    rewrite (Hrun HS) in E. injection E as <- <-.
    split; [lia |]. eexists. split; [| apply has_shape_tabulate].
    rewrite heap_set_heap, lookup_app_r by (rewrite length_insert; lia).
    rewrite length_insert.
    by replace (length (heap s) + 1 - length (heap s))%nat with 1%nat by lia.
Qed.

Lemma backward_pass_cpu_returns_iff_witness :
  ∃ out s',
    backward_pass_cpu_ 0 1 2
      (initial_state [Tensor 0 [[]]; Tensor 0 [[]]; Tensor 0 [[]]])
    = (Returns out, s').
Proof.
  apply (backward_pass_cpu_returns_iff
           (initial_state [Tensor 0 [[]]; Tensor 0 [[]]; Tensor 0 [[]]])
           0 1 2 (Tensor 0 [[]]) (Tensor 0 [[]]) (Tensor 0 [[]]) 1 0).
  - reflexivity.
  - repeat split. repeat constructor.
  - reflexivity.
  - repeat split. repeat constructor.
  - reflexivity.
  - repeat split. repeat constructor.
  - lia.
  - lia.
  - lia.
Defined.

Lemma grad_phi_rec_linear Tn l ph g1 g2 c n i k :
  grad_phi_rec Tn l ph (λ i k, g1 i k + c * g2 i k) n i k
  = grad_phi_rec Tn l ph g1 n i k + c * grad_phi_rec Tn l ph g2 n i k.
Proof.
  revert i k. induction n as [| n IH]; intros i k; simpl; [done |].
  rewrite !IH. case_decide; ring.
Qed.

Lemma grad_phi_rec_ext Sn Tn l ph g g' n i k :
  (∀ i' k', (i ≤ i' < Sn)%nat → (k ≤ k' < Tn)%nat → g i' k' = g' i' k') →
  (i + n < Sn)%nat → (k < Tn)%nat →
  grad_phi_rec Tn l ph g n i k = grad_phi_rec Tn l ph g' n i k.
Proof.
  revert i k. induction n as [| n IH]; intros i k H Hi Hk; simpl.
  - apply H; lia.
  - rewrite (H i k) by lia.
    rewrite (IH (i + 1)%nat k) by (try lia; intros; apply H; lia).
    case_decide; [| done].
    by rewrite (IH (i + 1)%nat (S k)) by (try lia; intros; apply H; lia).
Qed.

Lemma grad_logits_cell_ext Sn Tn l ph g g' i k :
  (∀ i' k', (i ≤ i' < Sn)%nat → (k ≤ k' < Tn)%nat → g i' k' = g' i' k') →
  (i < Sn)%nat → (k < Tn)%nat →
  grad_logits_cell Sn Tn l ph g i k = grad_logits_cell Sn Tn l ph g' i k.
Proof.
  intros H Hi Hk. unfold grad_logits_cell, loop_grad_cell, grad_phi_cell.
  rewrite (H i k) by lia. case_decide; [| done].
  rewrite (grad_phi_rec_ext Sn Tn l ph g g' _ (i + 1)%nat k)
    by (try lia; intros; apply H; lia).
  case_decide; [| done].
  by rewrite (grad_phi_rec_ext Sn Tn l ph g g' _ (i + 1)%nat (S k))
    by (try lia; intros; apply H; lia).
Qed.

(** X16: the gradient that [backward_pass_cpu_] returns is linear in the
    upstream gradient: for upstream gradients [g1] and [g2] and a scalar
    [c], every cell of the result for [g1 + c * g2] is the cell for [g1]
    plus [c] times the cell for [g2]. *)
Theorem backward_pass_cpu_linear L phi g1 g2 c Sn Tn i k :
  has_shape L Sn Tn → has_shape phi Sn Tn →
  has_shape g1 Sn Tn → has_shape g2 Sn Tn →
  (i < Sn)%nat → (k < Tn)%nat →
  backward_grad_cell L phi (tensor_add g1 (tensor_map (Rmult c) g2)) i k
  = backward_grad_cell L phi g1 i k + c * backward_grad_cell L phi g2 i k.
Proof.
  intros HL HP H1 H2 Hi Hk.
  assert (tensor_add g1 (tensor_map (Rmult c) g2)
          = tabulate Sn Tn (λ i k, cell g1 i k + c * cell g2 i k)) as ->.
  { rewrite (tensor_is_tabulate _ _ _ H1) at 1.
    rewrite (tensor_is_tabulate _ _ _ H2) at 1.
    unfold tensor_add. by rewrite tensor_map_tabulate, tensor_zip_tabulate. }
  rewrite (backward_grad_cell_eq L phi g1 Sn Tn) by done.
  rewrite (backward_grad_cell_eq L phi g2 Sn Tn) by done.
  rewrite (backward_grad_cell_eq L phi _ Sn Tn)
    by (done || apply has_shape_tabulate).
  rewrite (grad_logits_cell_ext Sn Tn _ _ _
             (λ i k, cell g1 i k + c * cell g2 i k))
    by (try done; intros; apply cell_tabulate; lia).
  unfold grad_logits_cell, loop_grad_cell, grad_phi_cell.
  rewrite !grad_phi_rec_linear.
  repeat case_decide; ring.
Qed.

Lemma backward_pass_cpu_linear_witness :
  backward_grad_cell (Tensor 1 [[1]; [2]]) (Tensor 1 [[0]; [3]])
    (tensor_add (Tensor 1 [[1]; [0]])
       (tensor_map (Rmult 5) (Tensor 1 [[0]; [1]]))) 0 0
  = backward_grad_cell (Tensor 1 [[1]; [2]]) (Tensor 1 [[0]; [3]])
      (Tensor 1 [[1]; [0]]) 0 0
    + 5 * backward_grad_cell (Tensor 1 [[1]; [2]]) (Tensor 1 [[0]; [3]])
            (Tensor 1 [[0]; [1]]) 0 0.
Proof.
  apply (backward_pass_cpu_linear (Tensor 1 [[1]; [2]]) (Tensor 1 [[0]; [3]])
           (Tensor 1 [[1]; [0]]) (Tensor 1 [[0]; [1]]) 5 2 1 0 0).
  - repeat split. repeat constructor.
  - repeat split. repeat constructor.
  - repeat split. repeat constructor.
  - repeat split. repeat constructor.
  - lia.
  - lia.
Defined.

(** X17: the gradient of the logit [(i, k)] depends on the upstream
    gradient only in the cells [(i', k')] with [i ≤ i'] and [k ≤ k']:
    two upstream gradients that agree there give the same cell.  On the
    last source row the gradient is the direct term alone,
    [_d_neg_log_prob(logits) * grad], whatever the table holds. *)
Theorem backward_pass_cpu_support L phi g g' Sn Tn i k :
  has_shape L Sn Tn → has_shape phi Sn Tn →
  has_shape g Sn Tn → has_shape g' Sn Tn →
  (i < Sn)%nat → (k < Tn)%nat →
  ((∀ i' k', (i ≤ i' < Sn)%nat → (k ≤ k' < Tn)%nat →
             cell g i' k' = cell g' i' k') →
   backward_grad_cell L phi g i k = backward_grad_cell L phi g' i k)
  ∧ (i = (Sn - 1)%nat →
     backward_grad_cell L phi g i k
     = _d_neg_log_prob (cell L i k) * cell g i k).
Proof.
  intros HL HP HG HG' Hi Hk.
  rewrite (backward_grad_cell_eq L phi g Sn Tn) by done.
  rewrite (backward_grad_cell_eq L phi g' Sn Tn) by done.
  split.
  - intros H. by apply grad_logits_cell_ext.
  - intros ->. unfold grad_logits_cell, loop_grad_cell.
    case_decide; [lia | lra].
Qed.

Lemma backward_pass_cpu_support_witness :
  backward_grad_cell (Tensor 1 [[1]; [2]]) (Tensor 1 [[0]; [3]])
    (Tensor 1 [[4]; [5]]) 1 0
  = _d_neg_log_prob (cell (Tensor 1 [[1]; [2]]) 1 0)
    * cell (Tensor 1 [[4]; [5]]) 1 0.
Proof.
  apply (backward_pass_cpu_support (Tensor 1 [[1]; [2]]) (Tensor 1 [[0]; [3]])
           (Tensor 1 [[4]; [5]]) (Tensor 1 [[4]; [5]]) 2 1 1 0).
  - repeat split. repeat constructor.
  - repeat split. repeat constructor.
  - repeat split. repeat constructor.
  - repeat split. repeat constructor.
  - lia.
  - lia.
  - reflexivity.
Defined.

(** * Further properties: dispatch and the entry point *)

(** X18: on a cache built by calls, the dispatch returns the Triton
    implementation exactly for the device type ["cuda"] when Triton is
    supported; and a call touches the cache at its own device type only,
    every other entry staying as it was. *)
Theorem get_monotonic_attention_fn_gpu triton cache device_type :
  reachable triton cache →
  (fst (get_monotonic_attention_fn triton device_type cache)
   = monotonic_attention_gpu_fn
   ↔ device_type = "cuda" ∧ triton = true)
  ∧ (∀ other, other ≠ device_type →
       snd (get_monotonic_attention_fn triton device_type cache) !! other
       = cache !! other).
Proof.
  intros Hr. split.
  - rewrite get_monotonic_attention_fn_value by done.
    unfold get_monotonic_attention_fn_body.
    case_bool_decide as Hd; simpl.
    + split; [done | by intros [? _]].
    + destruct triton; simpl.
      * split; done.
      * split; [done | by intros [_ ?]].
  - intros other Hne. unfold get_monotonic_attention_fn, lru_cache.
    destruct (cache !! device_type); simpl; [done |].
    by rewrite lookup_insert_ne.
Qed.

Lemma get_monotonic_attention_fn_gpu_witness :
  fst (get_monotonic_attention_fn true "cuda" ∅) = monotonic_attention_gpu_fn
  ↔ "cuda" = "cuda" ∧ true = true.
Proof.
  apply (get_monotonic_attention_fn_gpu true ∅ "cuda"). constructor.
Defined.

Lemma monotonic_attention_cpu_run logits s L Sn Tn :
  heap s !! logits = Some L → has_shape L Sn Tn →
  (1 ≤ Sn)%nat → (1 ≤ Tn)%nat →
  monotonic_attention_cpu logits s
  = (Returns (length (heap s) + 2)%nat,
     State (heap s ++ [tabulate Sn (S Tn) (phi_rec (padded (cell L)));
                       tabulate Sn Tn (phi_cell L);
                       tabulate Sn Tn (prob_cell L)])
       (warned s ++ if decide (Sn < Tn)%nat then [one_to_many_warning]
                    else [])
       (uninit s)).
Proof.
  intros Hl HL HS HT. destruct (has_shape_sizes _ _ _ HL) as [ES ET].
  unfold monotonic_attention_cpu.
  rewrite (bind_run _ _ _ _ _ (load_run _ _ _ Hl)). rewrite ES, ET.
  set (w := if decide (Sn < Tn)%nat then [one_to_many_warning] else []).
  set (sw := State (heap s) (warned s ++ w) (uninit s)).
  assert (bind (if decide (Sn < Tn)%nat then warn one_to_many_warning
                else ret ())
            (λ _, let! r := MonotonicAttentionCpu.forward logits in ret r.2) s
          = (let! r := MonotonicAttentionCpu.forward logits in ret r.2) sw)
    as ->.
  { unfold bind at 1, sw, w. case_decide; simpl; [done |].
    rewrite app_nil_r. by destruct s. }
  erewrite bind_run; [| by apply (forward_run logits sw L Sn Tn)].
  done.
Qed.

(** X19: on a device other than ["cuda"], or without Triton, the entry point
    [monotonic_attention] computes what the CPU forward pass computes,
    whatever the Triton implementation would do: on logits with no empty
    axis it returns a new tensor object holding the marginals of
    [forward_pass_cpu_], and the logits are left as they were. *)
Theorem monotonic_attention_on_cpu triton gpu_impl device_type cache
    logits s L Sn Tn :
  reachable triton cache →
  device_type ≠ "cuda" ∨ triton = false →
  heap s !! logits = Some L → has_shape L Sn Tn →
  (1 ≤ Sn)%nat → (1 ≤ Tn)%nat →
  ∃ out s' phi prob,
    fst (monotonic_attention triton gpu_impl device_type cache logits) s
    = (Returns out, s')
    ∧ (length (heap s) ≤ out)%nat
    ∧ heap s' !! out = Some prob
    ∧ forward_outputs L = Some (phi, prob)
    ∧ heap s' !! logits = Some L.
Proof.
  intros Hr Hdev Hl HL HS HT.
  assert (fst (get_monotonic_attention_fn triton device_type cache)
          = monotonic_attention_cpu_fn) as Hf.
  { rewrite get_monotonic_attention_fn_value by done.
    unfold get_monotonic_attention_fn_body.
    destruct Hdev as [Hd | ->]; [by rewrite bool_decide_eq_true_2 |].
    simpl. by rewrite orb_true_r. }
  unfold monotonic_attention.
  destruct (get_monotonic_attention_fn triton device_type cache)
    as [f cache'].
  simpl in Hf. subst f. simpl.
  rewrite (monotonic_attention_cpu_run _ _ _ _ _ Hl HL HS HT).
  eexists _, _, (tabulate Sn Tn (phi_cell L)), (tabulate Sn Tn (prob_cell L)).
  split; [done |]. simpl. split_and!.
  - lia.
  - rewrite lookup_app_r by lia.
    by replace (length (heap s) + 2 - length (heap s))%nat with 2%nat by lia.
  - rewrite (tensor_is_tabulate _ _ _ HL) at 1.
    by rewrite forward_outputs_tabulate.
  - rewrite lookup_app_l; [done |]. by eapply lookup_lt_Some.
Qed.

Lemma monotonic_attention_on_cpu_witness :
  ∃ out s' phi prob,
    fst (monotonic_attention true (λ l, ret l) "cpu" ∅ 0)
      (initial_state [Tensor 1 [[1]; [2]]])
    = (Returns out, s')
    ∧ (1 ≤ out)%nat
    ∧ heap s' !! out = Some prob
    ∧ forward_outputs (Tensor 1 [[1]; [2]]) = Some (phi, prob)
    ∧ heap s' !! 0%nat = Some (Tensor 1 [[1]; [2]]).
Proof.
  apply (monotonic_attention_on_cpu true (λ l, ret l) "cpu" ∅ 0
           (initial_state [Tensor 1 [[1]; [2]]]) (Tensor 1 [[1]; [2]]) 2 1).
  - constructor.
  - by left.
  - reflexivity.
  - repeat split. repeat constructor.
  - lia.
  - lia.
Defined.

(** * Further properties: the layer *)

Lemma sigmoid_clamp_bounds p y :
  1 / 2 < p < 1 →
  - - ln (1 / p - 1) <= y <= - ln (1 / p - 1) →
  1 - p <= exp (_pos_log_prob y) <= p
  ∧ 1 - p <= exp (_neg_log_prob y) <= p.
Proof.
  intros Hp [Hlo Hhi].
  assert (0 < 1 / p - 1) as Hq.
  { unfold Rdiv. rewrite Rmult_1_l.
    assert (1 < / p); [| lra].
    rewrite <- Rinv_1 at 1. apply Rinv_0_lt_contravar; lra. }
  assert (exp (- y) >= 1 / p - 1) as H1.
  { rewrite <- (exp_ln (1 / p - 1)) by done.
    apply Rle_ge, exp_le_compat. lra. }
  assert (exp y >= 1 / p - 1) as H2.
  { rewrite <- (exp_ln (1 / p - 1)) by done.
    apply Rle_ge, exp_le_compat. lra. }
  assert (/ (1 + exp (- y)) <= p) as H3.
  { rewrite <- (Rinv_inv p). apply Rinv_le_contravar.
    - apply Rinv_0_lt_compat. lra.
    - unfold Rdiv in H1. lra. }
  assert (/ (1 + exp y) <= p) as H4.
  { rewrite <- (Rinv_inv p). apply Rinv_le_contravar.
    - apply Rinv_0_lt_compat. lra.
    - unfold Rdiv in H2. lra. }
  pose proof (exp_pos_neg_log_prob y) as Hsum.
  rewrite exp_pos_log_prob, exp_neg_log_prob in *. lra.
Qed.

(** X20: clamping bounds the transition probabilities.  For a layer that
    the constructor accepts, the stay and the advance probability that the
    forward pass reads off a clamped logit both lie between
    [1 - clamp_prob] and [clamp_prob], in either clamping mode. *)
Theorem clamp_attn_probability mode embed_dim num_heads bias kdim vdim
    gqa_factor max_kv_cache_len clamp_prob soft_clamp self attn i j x :
  MonotonicAttention.__init__ mode embed_dim num_heads bias kdim vdim
    gqa_factor max_kv_cache_len clamp_prob soft_clamp = Returns self →
  cell_opt attn i j = Some x →
  ∃ y,
    cell_opt (MonotonicAttention._clamp_attn self attn) i j = Some y
    ∧ 1 - clamp_prob <= exp (_pos_log_prob y) <= clamp_prob
    ∧ 1 - clamp_prob <= exp (_neg_log_prob y) <= clamp_prob.
Proof.
  intros Hinit Hx.
  destruct (init_fields _ _ _ _ _ _ _ _ _ _ _ Hinit)
    as (Hp & _ & _ & _ & _ & Hsoft & _ & Hc).
  destruct (neg_prob_to_phi_valid _ Hp) as [_ Hpos].
  unfold MonotonicAttention._clamp_attn. rewrite Hsoft, Hc.
  destruct soft_clamp; simpl; rewrite cell_opt_tensor_map, Hx; simpl;
    eexists; (split; [done |]); apply sigmoid_clamp_bounds; try done.
  - pose proof (tanh_bounds x). nra.
  - unfold MonotonicAttention.clamp, Rmin, Rmax.
    repeat destruct (Rle_dec _ _); lra.
Qed.

Lemma clamp_attn_probability_witness :
  ∃ y,
    cell_opt
      (MonotonicAttention._clamp_attn
         (MonotonicAttention.Layer "many_keys_one_query" 2 1 2 2 None
            (- ln (1 / (98 / 100) - 1)) false (sqrt 2) 4 4 4 4 true)
         (Tensor 1 [[5]])) 0 0
    = Some y
    ∧ 1 - 98 / 100 <= exp (_pos_log_prob y) <= 98 / 100
    ∧ 1 - 98 / 100 <= exp (_neg_log_prob y) <= 98 / 100.
Proof.
  assert (1 / 2 < 98 / 100 < 1) as Hp by lra.
  apply (clamp_attn_probability "many_keys_one_query" 4 2 true None None 1
           None (98 / 100) false
           (MonotonicAttention.Layer "many_keys_one_query" 2 1 2 2 None
              (- ln (1 / (98 / 100) - 1)) false (sqrt 2) 4 4 4 4 true)
           (Tensor 1 [[5]]) 0 0 5).
  - unfold MonotonicAttention.__init__. simpl.
    rewrite !bool_decide_eq_true_2 by tauto. simpl.
    by destruct (neg_prob_to_phi_valid _ Hp) as [-> _].
  - reflexivity.
Defined.

Lemma tanh_le x y : x <= y → tanh x <= tanh y.
Proof.
  intros Hxy. rewrite !tanh_alt.
  pose proof (exp_pos (2 * x)).
  assert (exp (2 * x) <= exp (2 * y)) by (apply exp_le_compat; lra).
  assert (/ (exp (2 * y) + 1) <= / (exp (2 * x) + 1))
    by (apply Rinv_le_contravar; lra).
  unfold Rdiv. lra.
Qed.

Lemma tanh_opp x : tanh (- x) = - tanh x.
Proof.
  unfold tanh, sinh, cosh. rewrite Ropp_involutive.
  pose proof (exp_pos x). pose proof (exp_pos (- x)). field. lra.
Qed.

Lemma tensor_map_map f g t :
  tensor_map f (tensor_map g t) = tensor_map (λ x, f (g x)) t.
Proof.
  unfold tensor_map. simpl. f_equal. rewrite <- list_fmap_compose.
  apply list_fmap_ext. intros _ r _. simpl.
  by rewrite <- list_fmap_compose.
Qed.

Lemma tensor_map_ext f g t :
  (∀ x, f x = g x) → tensor_map f t = tensor_map g t.
Proof.
  intros H. unfold tensor_map. f_equal.
  apply list_fmap_ext. intros _ r _. apply list_fmap_ext. intros _ x _.
  apply H.
Qed.

(** X21: for a layer that the constructor accepts, clamping keeps the order
    of any two scores, is odd (clamping the negated scores negates the
    clamped scores), and the hard clamp is idempotent. *)
Theorem clamp_attn_order mode embed_dim num_heads bias kdim vdim
    gqa_factor max_kv_cache_len clamp_prob soft_clamp self attn :
  MonotonicAttention.__init__ mode embed_dim num_heads bias kdim vdim
    gqa_factor max_kv_cache_len clamp_prob soft_clamp = Returns self →
  (∀ i j x i' j' x',
     cell_opt attn i j = Some x → cell_opt attn i' j' = Some x' → x <= x' →
     cell (MonotonicAttention._clamp_attn self attn) i j
     <= cell (MonotonicAttention._clamp_attn self attn) i' j')
  ∧ MonotonicAttention._clamp_attn self (tensor_map Ropp attn)
    = tensor_map Ropp (MonotonicAttention._clamp_attn self attn)
  ∧ (soft_clamp = false →
     MonotonicAttention._clamp_attn self
       (MonotonicAttention._clamp_attn self attn)
     = MonotonicAttention._clamp_attn self attn).
Proof.
  intros Hinit.
  destruct (init_fields _ _ _ _ _ _ _ _ _ _ _ Hinit)
    as (Hp & _ & _ & _ & _ & Hsoft & _ & Hc).
  destruct (neg_prob_to_phi_valid _ Hp) as [_ Hpos].
  unfold MonotonicAttention._clamp_attn. rewrite Hsoft, Hc.
  set (c := - ln (1 / clamp_prob - 1)) in *.
  split_and!.
  - intros i j x i' j' x' Hx Hx' Hle. unfold cell.
    destruct soft_clamp; simpl; rewrite !cell_opt_tensor_map, Hx, Hx'; simpl.
    + pose proof (tanh_le _ _ Hle). nra.
    + unfold MonotonicAttention.clamp, Rmin, Rmax.
      repeat destruct (Rle_dec _ _); lra.
  - destruct soft_clamp; simpl; rewrite !tensor_map_map;
      apply tensor_map_ext; intros x.
    + rewrite tanh_opp. ring.
    + unfold MonotonicAttention.clamp, Rmin, Rmax.
      repeat destruct (Rle_dec _ _); lra.
  - intros ->. simpl. rewrite tensor_map_map.
    apply tensor_map_ext; intros x.
    unfold MonotonicAttention.clamp, Rmin, Rmax.
    repeat destruct (Rle_dec _ _); lra.
Qed.

Lemma clamp_attn_order_witness :
  MonotonicAttention._clamp_attn
    (MonotonicAttention.Layer "many_keys_one_query" 2 1 2 2 None
       (- ln (1 / (98 / 100) - 1)) false (sqrt 2) 4 4 4 4 true)
    (tensor_map Ropp (Tensor 1 [[5]]))
  = tensor_map Ropp
      (MonotonicAttention._clamp_attn
         (MonotonicAttention.Layer "many_keys_one_query" 2 1 2 2 None
            (- ln (1 / (98 / 100) - 1)) false (sqrt 2) 4 4 4 4 true)
         (Tensor 1 [[5]])).
Proof.
  assert (1 / 2 < 98 / 100 < 1) as Hp by lra.
  apply (clamp_attn_order "many_keys_one_query" 4 2 true None None 1
           None (98 / 100) false
           (MonotonicAttention.Layer "many_keys_one_query" 2 1 2 2 None
              (- ln (1 / (98 / 100) - 1)) false (sqrt 2) 4 4 4 4 true)
           (Tensor 1 [[5]])).
  unfold MonotonicAttention.__init__. simpl.
  rewrite !bool_decide_eq_true_2 by tauto. simpl.
  by destruct (neg_prob_to_phi_valid _ Hp) as [-> _].
Defined.

(** X22: the dimensions that an accepted constructor call stores are
    consistent: the heads tile the embedding, the key-value heads tile the
    heads, [norm_fact] is the non-negative square root of [head_dim], and
    the key and value dimensions default to [embed_dim], the flag
    [_qkv_same_embed_dim] being set exactly when both equal it. *)
Theorem init_dimensions mode embed_dim num_heads bias kdim vdim
    gqa_factor max_kv_cache_len clamp_prob soft_clamp self :
  MonotonicAttention.__init__ mode embed_dim num_heads bias kdim vdim
    gqa_factor max_kv_cache_len clamp_prob soft_clamp = Returns self →
  (MonotonicAttention.head_dim self * MonotonicAttention.num_heads self
   = MonotonicAttention.embed_dim self)%Z
  ∧ (MonotonicAttention.kv_num_heads self * MonotonicAttention.gqa_factor self
     = MonotonicAttention.num_heads self)%Z
  ∧ (MonotonicAttention.kv_embed_dim self * MonotonicAttention.gqa_factor self
     = MonotonicAttention.embed_dim self)%Z
  ∧ (0 ≤ MonotonicAttention.head_dim self)%Z
  ∧ 0 <= MonotonicAttention.norm_fact self
  ∧ MonotonicAttention.norm_fact self * MonotonicAttention.norm_fact self
    = IZR (MonotonicAttention.head_dim self)
  ∧ MonotonicAttention.kdim self = default embed_dim kdim
  ∧ MonotonicAttention.vdim self = default embed_dim vdim
  ∧ (MonotonicAttention._qkv_same_embed_dim self = true
     ↔ MonotonicAttention.kdim self = embed_dim
       ∧ MonotonicAttention.vdim self = embed_dim).
Proof.
  intros E.
  destruct (proj1 (init_returns_iff _ _ _ _ _ _ _ _ _ _) (ex_intro _ self E))
    as (Hn & Hg & Hd1 & Hd2 & Hp & Hh).
  revert E.
  unfold MonotonicAttention.__init__, py_mod, py_floordiv, py_sqrt, assert_.
  destruct (decide (num_heads = 0%Z)); [done |]. simpl.
  case_bool_decide; [| done]. simpl.
  destruct (decide (gqa_factor = 0%Z)); [done |]. simpl.
  case_bool_decide; [| done]. simpl.
  rewrite !bool_decide_eq_true_2 by tauto. simpl.
  destruct (neg_prob_to_phi_valid clamp_prob Hp) as [-> _]. simpl.
  destruct (decide (embed_dim / num_heads < 0)%Z); [done |]. simpl.
  intros [= <-]. simpl.
  destruct Hd1 as [a ->]. destruct Hd2 as [b ->].
  rewrite !Z.div_mul by done.
  split_and!; try done; try lia.
  - rewrite Z.div_mul in Hh by done. done.
  - apply sqrt_pos.
  - apply sqrt_sqrt, IZR_le. rewrite Z.div_mul in Hh by done. done.
  - rewrite andb_true_iff, !bool_decide_eq_true. done.
Qed.

Lemma init_dimensions_witness :
  (MonotonicAttention.kv_embed_dim
     (MonotonicAttention.Layer "many_keys_one_query" 4 2 2 2 None
        (- ln (1 / (98 / 100) - 1)) true (sqrt 2) 8 4 8 8 true)
   * MonotonicAttention.gqa_factor
       (MonotonicAttention.Layer "many_keys_one_query" 4 2 2 2 None
          (- ln (1 / (98 / 100) - 1)) true (sqrt 2) 8 4 8 8 true)
   = MonotonicAttention.embed_dim
       (MonotonicAttention.Layer "many_keys_one_query" 4 2 2 2 None
          (- ln (1 / (98 / 100) - 1)) true (sqrt 2) 8 4 8 8 true))%Z.
Proof.
  assert (1 / 2 < 98 / 100 < 1) as Hp by lra.
  destruct (init_dimensions "many_keys_one_query" 8 4 true None None 2 None
              (98 / 100) true
              (MonotonicAttention.Layer "many_keys_one_query" 4 2 2 2 None
                 (- ln (1 / (98 / 100) - 1)) true (sqrt 2) 8 4 8 8 true))
    as (_ & _ & H & _); [| exact H].
  unfold MonotonicAttention.__init__. simpl.
  rewrite !bool_decide_eq_true_2 by tauto. simpl.
  by destruct (neg_prob_to_phi_valid _ Hp) as [-> _].
Defined.
